(** * ScenePrinter.js: the Lens Studio scene hierarchy printer

    A shallow embedding of [Assets/Scripts/ScenePrinter.js] and the
    verification of its specification.  The script walks the scene graph of
    the host (Lens Studio) and sends one formatted line per scene object to
    the Logger through [print].

    The scene graph is an object store: scene objects are JavaScript objects
    that refer to their children by reference, so the store is a finite map
    from object identities to records, and a child is an identity.  The
    recursion of [printObjectRecursive] follows references, hence it is
    bounded by a call-depth budget (the JavaScript call stack). *)

From Stdlib Require Import Ascii.
From stdpp Require Import base option list gmap strings.

Open Scope string_scope.
Open Scope list_scope.

Set Warnings "-register-all".

(** ** JavaScript values of the properties the script probes *)

(** [component.tweenType] and [component.tweenName] are read without any
    declaration: the values modelled are the ones a script input can hold
    here, [undefined] standing for a property that is absent. *)
Inductive JsValue : Type :=
  | JUndefined
  | JNull
  | JBool (b : bool)
  | JString (s : string).

(** ToBoolean, as used by [if (component.tweenType)]. *)
Definition truthy (v : JsValue) : bool :=
  match v with
  | JUndefined | JNull => false
  | JBool b => b
  | JString "" => false
  | JString _ => true
  end.

(** ToString, as used by a template literal [`${v}`]. *)
Definition toString (v : JsValue) : string :=
  match v with
  | JUndefined => "undefined"
  | JNull => "null"
  | JBool true => "true"
  | JBool false => "false"
  | JString s => s
  end.

(** [Array.prototype.join] on an array of strings. *)
Fixpoint join (sep : string) (xs : list string) : string :=
  match xs with
  | [] => ""
  | [x] => x
  | x :: rest => x +:+ sep +:+ join sep rest
  end.

(** ** The scene graph *)

(** A component object.  [getTypeName] is [None] when the object has no such
    accessor, and [Some t] when it has one, returning [t]. *)
Record Component : Type := mkComponent {
  getTypeName : option string;
  tweenType : JsValue;
  tweenName : JsValue
}.

(** Identity of a scene object in the store. *)
Definition ObjRef : Type := nat.

(** A scene object: [name] is the property [object.name]; [components] is the
    array returned by [object.getComponents("Component")], whose entries are
    [None] for [null] and [Some c] for an object; [children] backs
    [getChildrenCount()] and [getChild(i)]. *)
Record SceneObject : Type := mkSceneObject {
  name : string;
  components : list (option Component);
  children : list ObjRef
}.

(** [global.scene]: the root objects, in the order of [getRootObject(i)], and
    the store of all scene objects. *)
Record Scene : Type := mkScene {
  roots : list ObjRef;
  objects : gmap ObjRef SceneObject
}.

(** ** The effects of the script *)

(** What the script can observe and change: the scene of the host and the
    lines the Logger has received so far, oldest first. *)
Record World : Type := mkWorld {
  scene : Scene;
  logger : list string
}.

Inductive Failure : Type :=
  | StackExhausted   (* the call-depth budget ran out *)
  | TypeError.       (* a property of a missing object was read *)

(** A run either returns a value or stops with a failure; the world reached
    is kept in both cases, since lines printed before a failure stay printed. *)
Inductive Outcome (A : Type) : Type :=
  | Returned (a : A) (w : World)
  | Threw (e : Failure) (w : World).
Arguments Returned {A} a w.
Arguments Threw {A} e w.

Definition Js (A : Type) : Type := World -> Outcome A.

Definition ret {A} (a : A) : Js A := fun w => Returned a w.

Definition bind {A B} (m : Js A) (k : A -> Js B) : Js B :=
  fun w =>
    match m w with
    | Returned a w' => k a w'
    | Threw e w' => Threw e w'
    end.

Definition throw {A} (e : Failure) : Js A := fun w => Threw e w.

(** The monad operations under stdpp's notations [x ← m; k] and [m ;; k]. *)
#[global] Instance Js_ret : MRet Js := @ret.
#[global] Instance Js_bind : MBind Js := fun A B k m => bind m k.

Definition world_of {A} (o : Outcome A) : World :=
  match o with
  | Returned _ w => w
  | Threw _ w => w
  end.

(** [print(line)]: append one line to the Logger. *)
Definition print (line : string) : Js unit :=
  fun w => Returned tt {| scene := scene w; logger := logger w ++ [line] |}.

(** Dereference a scene object. *)
Definition deref (r : ObjRef) : Js SceneObject :=
  fun w =>
    match objects (scene w) !! r with
    | Some o => Returned o w
    | None => Threw TypeError w
    end.

(** The accessors of the host that the script calls. *)
Definition getRootObjectsCount : Js nat :=
  fun w => Returned (length (roots (scene w))) w.

Definition getRootObject (i : nat) : Js ObjRef :=
  fun w =>
    match roots (scene w) !! i with
    | Some r => Returned r w
    | None => Threw TypeError w
    end.

Definition getComponents (object : ObjRef) : Js (list (option Component)) :=
  o ← deref object; ret (components o).

Definition getName (object : ObjRef) : Js string :=
  o ← deref object; ret (name o).

Definition getChildrenCount (object : ObjRef) : Js nat :=
  o ← deref object; ret (length (children o)).

Definition getChild (object : ObjRef) (i : nat) : Js ObjRef :=
  o ← deref object;
  match children o !! i with
  | Some c => ret c
  | None => throw TypeError
  end.

(** [for (var i = start; i < start + n; i++) acc = body(i, acc)]: a counted
    loop that threads the variables the body assigns. *)
Fixpoint for_from {V : Type} (n start : nat) (body : nat -> V -> Js V)
    (acc : V) : Js V :=
  match n with
  | 0 => ret acc
  | S n' => acc' ← body start acc; for_from n' (S start) body acc'
  end.

Definition for_range {V : Type} (n : nat) (body : nat -> V -> Js V)
    (init : V) : Js V :=
  for_from n 0 body init.

(** ** The script *)

(** The first loop of [printObjectRecursive]:
    [for (var j = 0; j < depth; j++) indentation += "  "]. *)
Fixpoint indentation_loop (n : nat) (indentation : string) : string :=
  match n with
  | 0 => indentation
  | S n' => indentation_loop n' (indentation +:+ "  ")
  end.

(** The body of the loop over [allComponents]: one round for index [i],
    with [componentNames] the array built so far. *)
Definition component_round (allComponents : list (option Component))
    (i : nat) (componentNames : list string) : Js (list string) :=
  match allComponents !! i with
  | Some (Some component) =>
      match getTypeName component with
      | Some typeName =>
          if truthy (tweenType component) then
            print "Found tween component" ;;
            let tweenInfo :=
              typeName +:+ "-TweenScript (type:" +:+
              toString (tweenType component) +:+ ", name:" +:+
              toString (tweenName component) +:+ ")" in
            ret (componentNames ++ [tweenInfo])
          else
            ret (componentNames ++ [typeName])
      | None => ret componentNames
      end
  | _ => ret componentNames
  end.

(** [printObjectRecursive(object, depth)].  [fuel] bounds the number of
    nested calls still allowed; a call with none left fails.  The array that
    [getComponents] returns is an object, hence truthy: the guard
    [allComponents && allComponents.length > 0] is the test on the length. *)
Fixpoint printObjectRecursive (fuel : nat) (object : ObjRef) (depth : nat)
    : Js unit :=
  match fuel with
  | 0 => throw StackExhausted
  | S fuel' =>
      let indentation := indentation_loop depth "" in
      allComponents ← getComponents object;
      componentsInfo ←
        (if (0 <? length allComponents)%nat then
           componentNames ←
             for_range (length allComponents)
               (component_round allComponents) [];
           ret (" (" +:+ join ", " componentNames +:+ ")")
         else ret "");
      objectName ← getName object;
      print (indentation +:+ "|-- " +:+ objectName +:+ componentsInfo) ;;
      childrenCount ← getChildrenCount object;
      for_range childrenCount
        (fun i _ =>
           child ← getChild object i;
           printObjectRecursive fuel' child (depth + 1))
        tt
  end.

(** [printSceneHierarchy()], which the script exposes as
    [script.printHierarchy]; [fuel] is the budget of each visit of a root. *)
Definition printSceneHierarchy (fuel : nat) : Js unit :=
  print "--- Scene Hierarchy Start ---" ;;
  rootObjectsCount ← getRootObjectsCount;
  for_range rootObjectsCount
    (fun i _ =>
       rootObject ← getRootObject i;
       printObjectRecursive fuel rootObject 0)
    tt ;;
  print "--- Scene Hierarchy End ---".

(** ** A sample scene: the one of the repository's scene map *)

Definition plain (t : string) : option Component :=
  Some {| getTypeName := Some t; tweenType := JUndefined; tweenName := JUndefined |}.

Definition tween (ty nm : string) : option Component :=
  Some {| getTypeName := Some "Component.ScriptComponent";
          tweenType := JString ty; tweenName := JString nm |}.

Definition sample_scene : Scene :=
  {| roots := [0; 4; 5; 8];
     objects := list_to_map [
       (0, mkSceneObject "Scripts" [] [1; 2; 3]);
       (1, mkSceneObject "TweenManager__PLACE_IN_SCENE"
             [plain "Component.ScriptComponent"; plain "Component.ScriptComponent"] []);
       (2, mkSceneObject "ScenePrinter" [plain "Component.ScriptComponent"] []);
       (3, mkSceneObject "Main" [plain "Component.ScriptComponent"] []);
       (4, mkSceneObject "Camera Object" [plain "Component.Camera"] []);
       (5, mkSceneObject "Lighting" [] [6; 7]);
       (6, mkSceneObject "Envmap" [plain "Component.LightSource"] []);
       (7, mkSceneObject "Light" [plain "Component.LightSource"] []);
       (8, mkSceneObject "Orthographic Camera"
             [plain "Component.Camera"; plain "Component.Canvas"] [9]);
       (9, mkSceneObject "Full Frame Region"
             [plain "Component.ScreenTransform"; plain "Component.ScreenRegionComponent"] [10]);
       (10, mkSceneObject "Intro Cta"
             [plain "Component.ScreenTransform"; plain "Component.Image";
              tween "alpha" "fadeIn"; tween "alpha" "fadeOut"] [])
     ] |}.

Definition fresh (sc : Scene) : World := {| scene := sc; logger := [] |}.

(** ** What a visit writes, stated on the data *)

(** The definitions of this part do not come from the script: they describe
    its output as functions of the scene, and the script is proved to write
    what they say ([component_loop], [visit_spec], [hierarchy_spec]). *)

(** The world after the Logger has received [ls] more lines. *)
Definition emit (w : World) (ls : list string) : World :=
  {| scene := scene w; logger := logger w ++ ls |}.

(** The tween form of a descriptor. *)
Definition tween_descriptor (typeName : string) (ty nm : JsValue) : string :=
  typeName +:+ "-TweenScript (type:" +:+ toString ty +:+ ", name:" +:+
  toString nm +:+ ")".

(** The descriptor of a component that passes the check
    [component && component.getTypeName]: the tween form when [tweenType] is
    truthy, the type name otherwise; none for a component without
    [getTypeName]. *)
Definition descriptor (c : Component) : option string :=
  match getTypeName c with
  | Some typeName =>
      Some (if truthy (tweenType c)
            then tween_descriptor typeName (tweenType c) (tweenName c)
            else typeName)
  | None => None
  end.

(** An entry of the component array: [null] has no descriptor. *)
Definition describe (entry : option Component) : option string :=
  match entry with
  | Some c => descriptor c
  | None => None
  end.

Definition descriptors (cs : list (option Component)) : list string :=
  omap describe cs.

(** Entries for which the script prints its notice. *)
Definition announced (entry : option Component) : bool :=
  match entry with
  | Some c =>
      match getTypeName c with
      | Some _ => truthy (tweenType c)
      | None => false
      end
  | None => false
  end.

Definition tween_notice : string := "Found tween component".

Fixpoint tween_notes (cs : list (option Component)) : list string :=
  match cs with
  | [] => []
  | entry :: rest =>
      if announced entry then tween_notice :: tween_notes rest
      else tween_notes rest
  end.

(** [n] copies of the indentation unit. *)
Fixpoint indent (n : nat) : string :=
  match n with
  | 0 => ""
  | S n' => "  " +:+ indent n'
  end.

(** The component suffix of a line. *)
Definition componentsInfo (cs : list (option Component)) : string :=
  match cs with
  | [] => ""
  | _ :: _ => " (" +:+ join ", " (descriptors cs) +:+ ")"
  end.

(** The line of an object visited at [depth]. *)
Definition node_line (depth : nat) (o : SceneObject) : string :=
  indent depth +:+ "|-- " +:+ name o +:+ componentsInfo (components o).

(** Everything one visit prints for the object itself. *)
Definition object_lines (visit : nat * SceneObject) : list string :=
  tween_notes (components visit.2) ++ [node_line visit.1 visit.2].

Definition start_marker : string := "--- Scene Hierarchy Start ---".
Definition end_marker : string := "--- Scene Hierarchy End ---".

(** ** Finite acyclic scenes *)

(** The scene below a reference, unfolded: the object and, for each child in
    order, the unfolding of that child.  A reference has an unfolding exactly
    when finitely many objects are reachable from it, all present in the
    store, and none is its own descendant. *)
Inductive Tree : Type :=
  | Node (object : SceneObject) (subtrees : list Tree).

Inductive unfolds (st : gmap ObjRef SceneObject) : ObjRef -> Tree -> Prop :=
  | unfolds_node r o ts :
      st !! r = Some o ->
      Forall2 (unfolds st) (children o) ts ->
      unfolds st r (Node o ts).

Definition root_object (t : Tree) : SceneObject :=
  match t with Node o _ => o end.

Definition subtrees_of (t : Tree) : list Tree :=
  match t with Node _ ts => ts end.

(** Number of nested calls a visit of the tree needs. *)
Fixpoint height (t : Tree) : nat :=
  match t with
  | Node _ ts => S (foldr (fun t' acc => Nat.max (height t') acc) 0 ts)
  end.

Definition forest_height (ts : list Tree) : nat :=
  foldr (fun t' acc => Nat.max (height t') acc) 0 ts.

(** Number of scene objects of a tree, with multiplicity. *)
Fixpoint size (t : Tree) : nat :=
  match t with
  | Node _ ts => S (foldr (fun t' acc => size t' + acc) 0 ts)
  end.

Definition forest_size (ts : list Tree) : nat :=
  foldr (fun t' acc => size t' + acc) 0 ts.

(** Depth-first pre-order: the object, then its subtrees from left to right,
    each object paired with its distance from the root of the traversal. *)
Fixpoint preorder (depth : nat) (t : Tree) : list (nat * SceneObject) :=
  match t with
  | Node o ts => (depth, o) :: flat_map (preorder (S depth)) ts
  end.

Definition preorder_forest (depth : nat) (ts : list Tree)
    : list (nat * SceneObject) :=
  flat_map (preorder depth) ts.

(** The unfolding of the whole scene: one tree per root, in root order. *)
Definition scene_unfolds (sc : Scene) (ts : list Tree) : Prop :=
  Forall2 (unfolds (objects sc)) (roots sc) ts.

(** Everything [printSceneHierarchy] is expected to write for a forest. *)
Definition hierarchy_lines (ts : list Tree) : list string :=
  start_marker :: flat_map object_lines (preorder_forest 0 ts) ++ [end_marker].

Section TreeInduction.
Variable P : Tree -> Prop.
Hypothesis step : forall o ts, Forall P ts -> P (Node o ts).

Fixpoint Tree_ind_nested (t : Tree) : P t :=
  match t with
  | Node o ts =>
      step o ts
        ((fix go (l : list Tree) : Forall P l :=
            match l with
            | [] => List.Forall_nil P
            | t' :: l' => List.Forall_cons P t' l' (Tree_ind_nested t') (go l')
            end) ts)
  end.
End TreeInduction.

(** The visit of [t] at depth [d] with call budget [fuel] returns, having
    written the lines of [t] in pre-order. *)
Definition visit_ok (fuel d : nat) (t : Tree) : Prop :=
  forall r w,
    unfolds (objects (scene w)) r t ->
    printObjectRecursive fuel r d w =
    Returned tt (emit w (flat_map object_lines (preorder d t))).

(** ** Positions in a forest *)

(** A scene object of a forest is addressed by the index of its root and the
    child indices that lead to it; the length of that path is its distance
    from the root. *)
Fixpoint subtree (t : Tree) (path : list nat) : option Tree :=
  match path with
  | [] => Some t
  | i :: path' =>
      match subtrees_of t !! i with
      | Some t' => subtree t' path'
      | None => None
      end
  end.

Definition forest_subtree (ts : list Tree) (root : nat) (path : list nat)
    : option Tree :=
  match ts !! root with
  | Some t => subtree t path
  | None => None
  end.

(** Rank of the addressed object in the pre-order of its tree. *)
Fixpoint position (t : Tree) (path : list nat) : nat :=
  match path with
  | [] => 0
  | i :: path' =>
      match subtrees_of t !! i with
      | Some t' => S (forest_size (take i (subtrees_of t)) + position t' path')
      | None => 0
      end
  end.

Definition forest_position (ts : list Tree) (root : nat) (path : list nat)
    : nat :=
  match ts !! root with
  | Some t => forest_size (take root ts) + position t path
  | None => 0
  end.

(** Index, among the lines written by one call of [printSceneHierarchy], of
    the line of the addressed object: after the start marker, after all that
    is written for the objects before it, and after its own notices. *)
Definition line_index (ts : list Tree) (root : nat) (path : list nat) : nat :=
  match forest_subtree ts root path with
  | Some t =>
      1 + length (flat_map object_lines
                    (take (forest_position ts root path) (preorder_forest 0 ts)))
        + length (tween_notes (components (root_object t)))
  | None => 0
  end.

(** The same addresses, followed in the scene itself: [getRootObject(root)],
    then [getChild(i)] for each index of the path. *)
Fixpoint resolve (st : gmap ObjRef SceneObject) (r : ObjRef) (path : list nat)
    : option ObjRef :=
  match path with
  | [] => Some r
  | i :: path' =>
      match st !! r with
      | Some o =>
          match children o !! i with
          | Some c => resolve st c path'
          | None => None
          end
      | None => None
      end
  end.

Definition scene_resolve (sc : Scene) (root : nat) (path : list nat)
    : option SceneObject :=
  match roots sc !! root with
  | Some r =>
      match resolve (objects sc) r path with
      | Some r' => objects sc !! r'
      | None => None
      end
  | None => None
  end.

(** The check [component && component.getTypeName]. *)
Definition passes_check (entry : option Component) : bool :=
  match entry with
  | Some c =>
      match getTypeName c with
      | Some _ => true
      | None => false
      end
  | None => false
  end.

(** Number of notices written for a whole forest. *)
Definition notice_count (ts : list Tree) : nat :=
  length (flat_map (fun v : nat * SceneObject => tween_notes (components v.2))
            (preorder_forest 0 ts)).

(** Number of space characters a line starts with. *)
Fixpoint leading_spaces (s : string) : nat :=
  match s with
  | String " "%char s' => S (leading_spaces s')
  | _ => 0
  end.

(** ** Scenes without cycles, by ranks *)

(** Every reference of the scene leads to an object of the store. *)
Definition closed_scene (sc : Scene) : Prop :=
  (forall r, r ∈ roots sc -> is_Some (objects sc !! r)) /\
  (forall r o c, objects sc !! r = Some o -> c ∈ children o ->
     is_Some (objects sc !! c)).

(** No object is its own descendant: children rank strictly below parents. *)
Definition ranked_scene (sc : Scene) (rank : ObjRef -> nat) : Prop :=
  forall r o c, objects sc !! r = Some o -> c ∈ children o -> rank c < rank r.

(** ** Computations that only write to the Logger *)

Definition result_of {A} (o : Outcome A) : A + Failure :=
  match o with
  | Returned a _ => inl a
  | Threw e _ => inr e
  end.

Definition finish {A} (res : A + Failure) (w : World) : Outcome A :=
  match res with
  | inl a => Returned a w
  | inr e => Threw e w
  end.

(** [m] leaves the scene as it is, only appends to the Logger, and neither
    its result nor what it appends depends on what the Logger held before. *)
Definition writes_only {A} (m : Js A) : Prop :=
  forall sc, exists (res : A + Failure) (out : list string),
    forall l, m {| scene := sc; logger := l |} =
              finish res {| scene := sc; logger := l ++ out |}.

(** ** The reading of the formatting law that asks for both properties *)

Definition exposes (v : JsValue) : bool :=
  match v with
  | JUndefined => false
  | _ => true
  end.

(** Descriptor of a component with type name [typeName] when the tween form
    is chosen exactly for components exposing both properties. *)
Definition descriptor_if_both (typeName : string) (c : Component) : string :=
  if exposes (tweenType c) && exposes (tweenName c)
  then tween_descriptor typeName (tweenType c) (tweenName c)
  else typeName.

(** ** Scenes used as test inputs *)

(** One root without children and with one plain component. *)
Definition camera_scene : Scene :=
  {| roots := [0];
     objects := {[ 0 := mkSceneObject "Camera" [plain "Camera"] [] ]} |}.

Definition intro_cta : SceneObject :=
  mkSceneObject "Intro Cta" [tween "alpha" "fadeIn"] [].

(** One root with one configured tween. *)
Definition tween_scene : Scene :=
  {| roots := [0]; objects := {[ 0 := intro_cta ]} |}.

Definition tween_forest : list Tree := [Node intro_cta []].

(** A component exposing [tweenType] but no [tweenName]. *)
Definition half_tween : Component :=
  {| getTypeName := Some "Component.ScriptComponent";
     tweenType := JString "alpha"; tweenName := JUndefined |}.

Definition half_tween_object : SceneObject :=
  mkSceneObject "Intro Cta" [Some half_tween] [].

Definition half_tween_scene : Scene :=
  {| roots := [0]; objects := {[ 0 := half_tween_object ]} |}.

(** A component array holding [null] and an object without [getTypeName]. *)
Definition ghost_object : SceneObject :=
  mkSceneObject "Ghost"
    [None; Some {| getTypeName := None; tweenType := JString "alpha";
                   tweenName := JString "fadeIn" |}] [].

Definition ghost_scene : Scene :=
  {| roots := [0]; objects := {[ 0 := ghost_object ]} |}.

Definition null_object : SceneObject := mkSceneObject "Ghost" [None] [].

Definition null_scene : Scene :=
  {| roots := [0]; objects := {[ 0 := null_object ]} |}.

(** A root with two children, none with components. *)
Definition lighting : SceneObject := mkSceneObject "Lighting" [] [1; 2].
Definition envmap : SceneObject := mkSceneObject "Envmap" [] [].
Definition light : SceneObject := mkSceneObject "Light" [] [].

Definition lighting_scene : Scene :=
  {| roots := [0];
     objects := list_to_map [(0, lighting); (1, envmap); (2, light)] |}.

Definition lighting_forest : list Tree :=
  [Node lighting [Node envmap []; Node light []]].

(** No root at all. *)
Definition empty_scene : Scene := {| roots := []; objects := ∅ |}.

(** An object that is its own child. *)
Definition loop_scene : Scene :=
  {| roots := [0]; objects := {[ 0 := mkSceneObject "Loop" [] [0] ]} |}.

(** ** Reading a dump back *)

(** The shape of a tree: the objects forgotten, the nesting kept. *)
Inductive Shape : Type :=
  | ShapeNode (kids : list Shape).

Fixpoint shape (t : Tree) : Shape :=
  match t with
  | Node _ ts => ShapeNode (map shape ts)
  end.

Fixpoint drop_spaces (s : string) : string :=
  match s with
  | String " "%char s' => drop_spaces s'
  | _ => s
  end.

(** A line is the line of an object when ["|-- "] follows its leading
    spaces; its depth is then read off the number of those spaces. *)
Definition shown_depth (line : string) : option nat :=
  if String.prefix "|-- " (drop_spaces line)
  then Some (leading_spaces line / 2)
  else None.

(** Rebuilding a forest from the depths of its pre-order, last depth first:
    a new depth takes as children the trees in front that lie deeper. *)
Fixpoint take_deeper (d : nat) (forest : list (nat * Shape))
    : list Shape * list (nat * Shape) :=
  match forest with
  | (k, s) :: forest' =>
      if (d <? k)%nat
      then (s :: (take_deeper d forest').1, (take_deeper d forest').2)
      else ([], forest)
  | [] => ([], [])
  end.

Definition attach (d : nat) (forest : list (nat * Shape))
    : list (nat * Shape) :=
  (d, ShapeNode (take_deeper d forest).1) :: (take_deeper d forest).2.

Definition rebuild (depths : list nat) : list (nat * Shape) :=
  foldr attach [] depths.

(** The forest a reader of the log recovers from the indentation alone. *)
Definition read_shapes (lines : list string) : list Shape :=
  map snd (rebuild (omap shown_depth lines)).

(** A line moved [k] levels deeper; the notices carry no indentation. *)
Definition shift_line (k : nat) (line : string) : string :=
  if String.eqb line tween_notice then line else indent k +:+ line.

(** ** Computations whose lines all satisfy a property *)

(** Whatever the outcome of [m], it only appends lines that satisfy [P]. *)
Definition writes_lines (P : string -> Prop) {A} (m : Js A) : Prop :=
  forall w, exists out, world_of (m w) = emit w out /\ Forall P out.

(** [m] never returns on the scene [sc]. *)
Definition never_returns_on (sc : Scene) {A} (m : Js A) : Prop :=
  forall w, scene w = sc -> exists e w', m w = Threw e w'.

(** The lines a visit at [depth] may write: the notice, or ["|-- "] behind
    at least [depth] units of indentation. *)
Definition visit_line (depth : nat) (line : string) : Prop :=
  line = tween_notice \/
  exists k rest,
    depth <= k /\ line = join "" (replicate k "  ") +:+ "|-- " +:+ rest /\
    leading_spaces line = 2 * k.

(** A root whose grandchild has its parent as a child. *)
Definition detour_scene : Scene :=
  {| roots := [0];
     objects := list_to_map [
       (0, mkSceneObject "Root" [] [1]);
       (1, mkSceneObject "A" [tween "alpha" "fadeIn"] [2]);
       (2, mkSceneObject "B" [] [1]) ] |}.

Definition sample_forest : list Tree :=
  let leaf (n : string) (cs : list (option Component)) :=
    Node (mkSceneObject n cs []) [] in
  [ Node (mkSceneObject "Scripts" [] [1; 2; 3])
      [ leaf "TweenManager__PLACE_IN_SCENE"
          [plain "Component.ScriptComponent"; plain "Component.ScriptComponent"];
        leaf "ScenePrinter" [plain "Component.ScriptComponent"];
        leaf "Main" [plain "Component.ScriptComponent"] ];
    leaf "Camera Object" [plain "Component.Camera"];
    Node (mkSceneObject "Lighting" [] [6; 7])
      [ leaf "Envmap" [plain "Component.LightSource"];
        leaf "Light" [plain "Component.LightSource"] ];
    Node (mkSceneObject "Orthographic Camera"
            [plain "Component.Camera"; plain "Component.Canvas"] [9])
      [ Node (mkSceneObject "Full Frame Region"
                [plain "Component.ScreenTransform";
                 plain "Component.ScreenRegionComponent"] [10])
          [ leaf "Intro Cta"
              [plain "Component.ScreenTransform"; plain "Component.Image";
               tween "alpha" "fadeIn"; tween "alpha" "fadeOut"] ] ] ].

(** The visit of [t] with too small a budget fails after writing a prefix of
    the lines of [t]. *)
Definition visit_exhausts (fuel d : nat) (t : Tree) : Prop :=
  forall r w,
    unfolds (objects (scene w)) r t ->
    fuel < height t ->
    exists out,
      printObjectRecursive fuel r d w = Threw StackExhausted (emit w out) /\
      out `prefix_of` flat_map object_lines (preorder d t).

(** The first tree of a rebuilt forest, if any, lies at depth [d] at most. *)
Definition head_at_most (d : nat) (forest : list (nat * Shape)) : Prop :=
  match forest with
  | [] => True
  | (k, _) :: _ => k <= d
  end.

(** The depths of a tree are rebuilt into its shape, in front of whatever
    the depths that follow are rebuilt into. *)
Definition rebuilds (t : Tree) : Prop :=
  forall d rest,
    head_at_most d (rebuild rest) ->
    rebuild (map fst (preorder d t) ++ rest) = (d, shape t) :: rebuild rest.

(** * Verification *)

(** ** Running the monad *)

Lemma run_bind {A B} (m : Js A) (k : A -> Js B) (w : World) :
  (m ≫= k) w =
  match m w with
  | Returned a w' => k a w'
  | Threw e w' => Threw e w'
  end.
Proof. reflexivity. Qed.

Lemma run_bind_returned {A B} (m : Js A) (k : A -> Js B) w a w' :
  m w = Returned a w' -> (m ≫= k) w = k a w'.
Proof. intros H. rewrite run_bind, H. reflexivity. Qed.

Lemma run_ret {A} (a : A) w : ret a w = Returned a w.
Proof. reflexivity. Qed.

Lemma run_print line w : print line w = Returned tt (emit w [line]).
Proof. reflexivity. Qed.

Lemma emit_nil w : emit w [] = w.
Proof. destruct w. unfold emit. simpl. by rewrite app_nil_r. Qed.

Lemma emit_emit w l1 l2 : emit (emit w l1) l2 = emit w (l1 ++ l2).
Proof. unfold emit. simpl. by rewrite app_assoc. Qed.

Lemma scene_emit w ls : scene (emit w ls) = scene w.
Proof. reflexivity. Qed.

Lemma logger_emit w ls : logger (emit w ls) = logger w ++ ls.
Proof. reflexivity. Qed.

Section Accessors.
Variables (w : World) (r : ObjRef) (o : SceneObject).
Hypothesis present : objects (scene w) !! r = Some o.

Lemma run_getComponents : getComponents r w = Returned (components o) w.
Proof. unfold getComponents. rewrite run_bind. unfold deref. by rewrite present. Qed.

Lemma run_getName : getName r w = Returned (name o) w.
Proof. unfold getName. rewrite run_bind. unfold deref. by rewrite present. Qed.

Lemma run_getChildrenCount :
  getChildrenCount r w = Returned (length (children o)) w.
Proof. unfold getChildrenCount. rewrite run_bind. unfold deref. by rewrite present. Qed.

Lemma run_getChild i c :
  children o !! i = Some c -> getChild r i w = Returned c w.
Proof.
  intros Hc. unfold getChild. rewrite run_bind. unfold deref.
  rewrite present, Hc. reflexivity.
Qed.
End Accessors.

Lemma run_getRootObject w i r :
  roots (scene w) !! i = Some r -> getRootObject i w = Returned r w.
Proof. intros Hr. unfold getRootObject. by rewrite Hr. Qed.

Lemma run_getRootObjectsCount w :
  getRootObjectsCount w = Returned (length (roots (scene w))) w.
Proof. reflexivity. Qed.

(** ** The loop over the components *)

Lemma run_component_round cs i names w entry :
  cs !! i = Some entry ->
  component_round cs i names w =
  Returned (names ++ descriptors [entry]) (emit w (tween_notes [entry])).
Proof.
  intros Hi. unfold component_round. rewrite Hi.
  destruct entry as [c|]; simpl.
  - unfold descriptors, descriptor. simpl. unfold descriptor.
    destruct (getTypeName c) as [typeName|]; simpl.
    + destruct (truthy (tweenType c)); simpl.
      * rewrite run_bind, run_print. reflexivity.
      * by rewrite emit_nil.
    + by rewrite app_nil_r, emit_nil.
  - by rewrite app_nil_r, emit_nil.
Qed.

Lemma descriptors_app cs1 cs2 :
  descriptors (cs1 ++ cs2) = descriptors cs1 ++ descriptors cs2.
Proof. apply omap_app. Qed.

Lemma tween_notes_app cs1 cs2 :
  tween_notes (cs1 ++ cs2) = tween_notes cs1 ++ tween_notes cs2.
Proof.
  induction cs1 as [|c cs1 IH]; simpl; [done|].
  destruct (announced c); simpl; by rewrite IH.
Qed.

Lemma component_loop_from cs : forall done names w,
  for_from (length cs) (length done) (component_round (done ++ cs)) names w =
  Returned (names ++ descriptors cs) (emit w (tween_notes cs)).
Proof.
  induction cs as [|c cs IH]; intros done names w.
  - simpl. by rewrite app_nil_r, emit_nil.
  - cbn [length for_from]. rewrite run_bind.
    rewrite (run_component_round _ _ _ _ c).
    2:{ by rewrite lookup_app_r, Nat.sub_diag. }
    specialize (IH (done ++ [c])).
    rewrite length_app, <- app_assoc in IH. simpl in IH.
    rewrite Nat.add_1_r in IH. rewrite IH.
    rewrite emit_emit, <- app_assoc.
    change (c :: cs) with ([c] ++ cs).
    by rewrite descriptors_app, tween_notes_app.
Qed.

Lemma component_loop cs w :
  for_range (length cs) (component_round cs) [] w =
  Returned (descriptors cs) (emit w (tween_notes cs)).
Proof. apply (component_loop_from cs [] [] w). Qed.

(** ** Counted loops *)

Lemma for_from_ext {V} n : forall start start' (body body' : nat -> V -> Js V) acc w,
  (forall i acc' w', i < n -> body (start + i) acc' w' = body' (start' + i) acc' w') ->
  for_from n start body acc w = for_from n start' body' acc w.
Proof.
  induction n as [|n IH]; intros start start' body body' acc w Hbody; [done|].
  cbn [for_from]. rewrite !run_bind.
  specialize (Hbody 0 acc w) as H0. rewrite !Nat.add_0_r in H0.
  rewrite H0 by lia.
  destruct (body' start' acc w) as [acc1 w1|]; [|done].
  apply IH. intros i acc' w' Hi.
  specialize (Hbody (S i) acc' w').
  rewrite <- !Nat.add_succ_comm in Hbody. apply Hbody. lia.
Qed.

Lemma for_range_succ {V} n (body : nat -> V -> Js V) acc w :
  for_range (S n) body acc w =
  match body 0 acc w with
  | Returned acc' w' => for_range n (fun i => body (S i)) acc' w'
  | Threw e w' => Threw e w'
  end.
Proof.
  unfold for_range. cbn [for_from]. rewrite run_bind.
  destruct (body 0 acc w) as [acc' w'|]; [|done].
  apply for_from_ext. intros i ? ? _. reflexivity.
Qed.

(** ** Strings *)

Lemma append_cons a (s t : string) : String a s +:+ t = String a (s +:+ t).
Proof. reflexivity. Qed.

Lemma append_nil_l (t : string) : "" +:+ t = t.
Proof. reflexivity. Qed.

Lemma append_nil_r (s : string) : s +:+ "" = s.
Proof. induction s as [|a s IH]; [done|]. by rewrite append_cons, IH. Qed.

Lemma append_assoc (s1 s2 s3 : string) :
  (s1 +:+ s2) +:+ s3 = s1 +:+ (s2 +:+ s3).
Proof.
  induction s1 as [|a s1 IH]; [done|]. by rewrite !append_cons, IH.
Qed.

Lemma length_append (s1 s2 : string) :
  String.length (s1 +:+ s2) = String.length s1 + String.length s2.
Proof.
  induction s1 as [|a s1 IH]; [done|].
  rewrite append_cons. cbn [String.length]. by rewrite IH.
Qed.

(** ** One visit *)

Lemma indentation_loop_acc n : forall s,
  indentation_loop n s = s +:+ indent n.
Proof.
  induction n as [|n IH]; intros s; cbn [indentation_loop indent].
  - by rewrite append_nil_r.
  - by rewrite IH, append_assoc.
Qed.

Lemma indentation_loop_indent n : indentation_loop n "" = indent n.
Proof. by rewrite indentation_loop_acc. Qed.

Lemma forest_height_Forall ts f :
  forest_height ts <= f -> Forall (fun t => height t <= f) ts.
Proof.
  unfold forest_height.
  induction ts as [|t ts IH]; cbn [foldr]; intros H; constructor.
  - lia.
  - apply IH. lia.
Qed.

Lemma Forall_forest_height ts f :
  Forall (fun t => height t <= f) ts -> forest_height ts <= f.
Proof.
  unfold forest_height.
  induction 1 as [|t ts Ht _ IH]; cbn [foldr]; lia.
Qed.

(** A loop that visits the objects [refs] one after the other. *)
Lemma visit_loop fuel d ts :
  Forall (visit_ok fuel d) ts ->
  forall refs (body : nat -> unit -> Js unit) w,
    Forall2 (unfolds (objects (scene w))) refs ts ->
    (forall i c w', refs !! i = Some c -> scene w' = scene w ->
       body i tt w' = printObjectRecursive fuel c d w') ->
    for_range (length refs) body tt w =
    Returned tt (emit w (flat_map object_lines (preorder_forest d ts))).
Proof.
  induction 1 as [|t ts Ht _ IH]; intros refs body w Hun Hbody.
  - apply Forall2_nil_inv_r in Hun as ->. simpl. by rewrite emit_nil.
  - apply Forall2_cons_inv_r in Hun as (c & refs' & Hc & Hrefs & ->).
    cbn [length]. rewrite for_range_succ.
    rewrite (Hbody 0 c w) by done.
    rewrite (Ht c w Hc).
    rewrite (IH refs' (fun i => body (S i)) (emit w _)).
    + rewrite emit_emit. unfold preorder_forest. simpl.
      by rewrite flat_map_app.
    + exact Hrefs.
    + intros i c' w' Hi Hw'. apply Hbody; [done|]. by rewrite Hw'.
Qed.

Lemma visit_spec t : forall fuel d, height t <= fuel -> visit_ok fuel d t.
Proof.
  induction t as [o ts IH] using Tree_ind_nested.
  intros fuel d Hfuel r w Hun.
  inversion Hun as [r' o' ts' Hr Hkids]; subst.
  destruct fuel as [|fuel]; [simpl in Hfuel; lia|].
  cbn [printObjectRecursive].
  rewrite run_bind, (run_getComponents _ _ _ Hr).
  rewrite run_bind.
  assert (Hinfo :
    (if (0 <? length (components o))%nat
     then componentNames ← for_range (length (components o))
                             (component_round (components o)) [];
          ret (" (" +:+ join ", " componentNames +:+ ")")
     else ret "") w =
    Returned (componentsInfo (components o))
             (emit w (tween_notes (components o)))).
  { destruct (components o) as [|c cs] eqn:Hcs.
    - simpl. by rewrite emit_nil.
    - change (0 <? length (c :: cs))%nat with true. cbv iota.
      rewrite run_bind, component_loop. reflexivity. }
  rewrite Hinfo. clear Hinfo.
  rewrite run_bind, (run_getName _ _ o) by done.
  rewrite run_bind, run_print, emit_emit.
  rewrite run_bind, (run_getChildrenCount _ _ o) by done.
  rewrite indentation_loop_indent.
  rewrite (visit_loop fuel (S d) ts).
  - rewrite emit_emit. reflexivity.
  - simpl in Hfuel. apply Nat.succ_le_mono in Hfuel.
    apply forest_height_Forall in Hfuel.
    rewrite Forall_forall in IH. rewrite Forall_forall in Hfuel.
    apply Forall_forall. intros t Ht. apply IH; [done|by apply Hfuel].
  - exact Hkids.
  - intros i c w' Hi Hw'. rewrite run_bind.
    rewrite (run_getChild _ _ o) with (c := c); [|by rewrite Hw'|done].
    by rewrite Nat.add_1_r.
Qed.

(** ** The whole hierarchy *)

Lemma hierarchy_spec fuel ts w :
  scene_unfolds (scene w) ts ->
  forest_height ts <= fuel ->
  printSceneHierarchy fuel w = Returned tt (emit w (hierarchy_lines ts)).
Proof.
  intros Hun Hfuel. unfold printSceneHierarchy.
  rewrite run_bind, run_print. rewrite run_bind.
  unfold getRootObjectsCount at 1. cbn [scene emit].
  rewrite run_bind.
  rewrite (visit_loop fuel 0 ts).
  - rewrite run_print, !emit_emit. reflexivity.
  - apply forest_height_Forall in Hfuel.
    eapply Forall_impl; [exact Hfuel|].
    intros t Ht. by apply visit_spec.
  - exact Hun.
  - intros i c w' Hi Hw'. rewrite run_bind. unfold getRootObject.
    rewrite Hw'. cbn [scene emit]. by rewrite Hi.
Qed.

(** ** Nothing but the Logger is written *)

Lemma writes_only_ret {A} (a : A) : writes_only (ret a).
Proof. intros sc. exists (inl a), []. intros l. by rewrite app_nil_r. Qed.

Lemma writes_only_throw {A} (e : Failure) : writes_only (@throw A e).
Proof. intros sc. exists (inr e), []. intros l. by rewrite app_nil_r. Qed.

Lemma writes_only_print line : writes_only (print line).
Proof. intros sc. exists (inl tt), [line]. intros l. reflexivity. Qed.

Lemma writes_only_bind {A B} (m : Js A) (k : A -> Js B) :
  writes_only m -> (forall a, writes_only (k a)) -> writes_only (m ≫= k).
Proof.
  intros Hm Hk sc. destruct (Hm sc) as (res & out & Hrun).
  destruct res as [a|e].
  - destruct (Hk a sc) as (res' & out' & Hrun').
    exists res', (out ++ out'). intros l.
    rewrite run_bind, Hrun. cbn [finish]. rewrite Hrun'.
    by rewrite app_assoc.
  - exists (inr e), out. intros l. rewrite run_bind, Hrun. reflexivity.
Qed.

Lemma writes_only_deref r : writes_only (deref r).
Proof.
  intros sc. unfold deref. cbn [scene].
  destruct (objects sc !! r) as [o|].
  - exists (inl o), []. intros l. by rewrite app_nil_r.
  - exists (inr TypeError), []. intros l. by rewrite app_nil_r.
Qed.

Lemma writes_only_getRootObjectsCount : writes_only getRootObjectsCount.
Proof.
  intros sc. exists (inl (length (roots sc))), []. intros l.
  unfold getRootObjectsCount. cbn [scene finish]. by rewrite app_nil_r.
Qed.

Lemma writes_only_getRootObject i : writes_only (getRootObject i).
Proof.
  intros sc. unfold getRootObject. cbn [scene].
  destruct (roots sc !! i) as [r|].
  - exists (inl r), []. intros l. by rewrite app_nil_r.
  - exists (inr TypeError), []. intros l. by rewrite app_nil_r.
Qed.

Lemma writes_only_getComponents r : writes_only (getComponents r).
Proof.
  apply writes_only_bind; [apply writes_only_deref|].
  intros o. apply writes_only_ret.
Qed.

Lemma writes_only_getName r : writes_only (getName r).
Proof.
  apply writes_only_bind; [apply writes_only_deref|].
  intros o. apply writes_only_ret.
Qed.

Lemma writes_only_getChildrenCount r : writes_only (getChildrenCount r).
Proof.
  apply writes_only_bind; [apply writes_only_deref|].
  intros o. apply writes_only_ret.
Qed.

Lemma writes_only_getChild r i : writes_only (getChild r i).
Proof.
  apply writes_only_bind; [apply writes_only_deref|].
  intros o. destruct (children o !! i);
    [apply writes_only_ret|apply writes_only_throw].
Qed.

Lemma writes_only_for_from {V} n : forall start (body : nat -> V -> Js V) acc,
  (forall i a, writes_only (body i a)) ->
  writes_only (for_from n start body acc).
Proof.
  induction n as [|n IH]; intros start body acc Hbody; cbn [for_from].
  - apply writes_only_ret.
  - apply writes_only_bind; [apply Hbody|]. intros acc'. by apply IH.
Qed.

Lemma writes_only_component_round cs i names :
  writes_only (component_round cs i names).
Proof.
  unfold component_round.
  destruct (cs !! i) as [[c|]|]; try apply writes_only_ret.
  destruct (getTypeName c) as [typeName|]; [|apply writes_only_ret].
  destruct (truthy (tweenType c)); [|apply writes_only_ret].
  apply writes_only_bind; [apply writes_only_print|].
  intros _. apply writes_only_ret.
Qed.

Lemma writes_only_printObjectRecursive fuel : forall r d,
  writes_only (printObjectRecursive fuel r d).
Proof.
  induction fuel as [|fuel IH]; intros r d; cbn [printObjectRecursive].
  - apply writes_only_throw.
  - apply writes_only_bind; [apply writes_only_getComponents|].
    intros cs. apply writes_only_bind.
    { destruct (0 <? length cs)%nat; [|apply writes_only_ret].
      apply writes_only_bind.
      - apply writes_only_for_from. intros i a.
        apply writes_only_component_round.
      - intros names. apply writes_only_ret. }
    intros info. apply writes_only_bind; [apply writes_only_getName|].
    intros nm. apply writes_only_bind; [apply writes_only_print|].
    intros _. apply writes_only_bind; [apply writes_only_getChildrenCount|].
    intros n. apply writes_only_for_from. intros i [].
    apply writes_only_bind; [apply writes_only_getChild|].
    intros c. apply IH.
Qed.

Lemma writes_only_printSceneHierarchy fuel :
  writes_only (printSceneHierarchy fuel).
Proof.
  unfold printSceneHierarchy.
  apply writes_only_bind; [apply writes_only_print|]. intros _.
  apply writes_only_bind; [apply writes_only_getRootObjectsCount|]. intros n.
  apply writes_only_bind; [|intros _; apply writes_only_print].
  apply writes_only_for_from. intros i [].
  apply writes_only_bind; [apply writes_only_getRootObject|].
  intros r. apply writes_only_printObjectRecursive.
Qed.

Lemma world_eta w : {| scene := scene w; logger := logger w |} = w.
Proof. by destruct w. Qed.

Lemma world_of_finish {A} (res : A + Failure) w : world_of (finish res w) = w.
Proof. by destruct res. Qed.

Lemma result_of_finish {A} (res : A + Failure) w : result_of (finish res w) = res.
Proof. by destruct res. Qed.

(** ** Pre-order positions *)

Lemma forest_size_app ts1 ts2 :
  forest_size (ts1 ++ ts2) = forest_size ts1 + forest_size ts2.
Proof.
  unfold forest_size. induction ts1 as [|t ts1 IH]; cbn [foldr app]; lia.
Qed.

Lemma forest_size_cons t ts : forest_size (t :: ts) = size t + forest_size ts.
Proof. reflexivity. Qed.

Lemma size_pos t : 0 < size t.
Proof. destruct t. cbn [size]. lia. Qed.

Lemma length_preorder t : forall d, length (preorder d t) = size t.
Proof.
  induction t as [o ts IH] using Tree_ind_nested. intros d.
  cbn [preorder size length]. f_equal.
  induction IH as [|t ts Ht _ IHts]; [done|].
  cbn [flat_map foldr]. by rewrite length_app, Ht, IHts.
Qed.

Lemma length_preorder_forest d ts :
  length (preorder_forest d ts) = forest_size ts.
Proof.
  unfold preorder_forest, forest_size.
  induction ts as [|t ts IH]; [done|].
  cbn [flat_map foldr]. by rewrite length_app, length_preorder, IH.
Qed.

Lemma preorder_forest_app d ts1 ts2 :
  preorder_forest d (ts1 ++ ts2) = preorder_forest d ts1 ++ preorder_forest d ts2.
Proof. apply flat_map_app. Qed.

Lemma preorder_forest_split d ts i t :
  ts !! i = Some t ->
  preorder_forest d ts =
  preorder_forest d (take i ts) ++ preorder d t ++
  preorder_forest d (drop (S i) ts).
Proof.
  intros Hi. rewrite <- (take_drop_middle ts i t Hi) at 1.
  rewrite preorder_forest_app. unfold preorder_forest at 2.
  reflexivity.
Qed.

Lemma preorder_forest_lookup d ts i t n v :
  ts !! i = Some t ->
  preorder d t !! n = Some v ->
  preorder_forest d ts !! (forest_size (take i ts) + n) = Some v.
Proof.
  intros Hi Hn. rewrite (preorder_forest_split d ts i t Hi).
  rewrite lookup_app_r; rewrite length_preorder_forest; [|lia].
  replace (forest_size (take i ts) + n - forest_size (take i ts)) with n by lia.
  by apply lookup_app_l_Some.
Qed.

Lemma lookup_position path : forall t d t',
  subtree t path = Some t' ->
  preorder d t !! position t path = Some (d + length path, root_object t').
Proof.
  induction path as [|i path IH]; intros t d t' Hsub.
  - cbn in Hsub. injection Hsub as <-. destruct t as [o ts].
    cbn. by rewrite Nat.add_0_r.
  - cbn [subtree position] in *. destruct t as [o ts]. cbn [subtrees_of] in *.
    destruct (ts !! i) as [ti|] eqn:Hi; [|done].
    cbn [preorder]. rewrite lookup_cons_ne_0; [|done]. cbn [Nat.pred].
    change (flat_map (preorder (S d)) ts) with (preorder_forest (S d) ts).
    erewrite preorder_forest_lookup; [|exact Hi|apply IH, Hsub].
    f_equal. f_equal. cbn [length]. lia.
Qed.

Lemma position_lt_size path t t' :
  subtree t path = Some t' -> position t path < size t.
Proof.
  intros Hsub. rewrite <- (length_preorder t 0).
  eapply lookup_lt_Some. by apply lookup_position.
Qed.

Lemma subtree_app path : forall t rest,
  subtree t (path ++ rest) =
  match subtree t path with
  | Some t' => subtree t' rest
  | None => None
  end.
Proof.
  induction path as [|i path IH]; intros t rest; [done|].
  cbn [app subtree]. destruct (subtrees_of t !! i); [apply IH|done].
Qed.

(** An object comes before each of its descendants. *)
Lemma position_descendant path : forall t rest t',
  rest <> [] ->
  subtree t (path ++ rest) = Some t' ->
  position t path < position t (path ++ rest).
Proof.
  induction path as [|i path IH]; intros t rest t' Hrest Hsub.
  - destruct rest as [|j rest]; [done|]. cbn [app subtree position] in *.
    destruct (subtrees_of t !! j); [lia|done].
  - cbn [app subtree position] in *.
    destruct (subtrees_of t !! i) as [ti|]; [|done].
    specialize (IH ti rest t' Hrest Hsub). lia.
Qed.

Lemma forest_size_take_lt ts i j ti :
  ts !! i = Some ti -> i < j ->
  forest_size (take i ts) + size ti <= forest_size (take j ts).
Proof.
  intros Hi Hij.
  rewrite <- (take_drop_middle ts i ti Hi) at 2.
  rewrite take_app_ge; rewrite length_take_le;
    [|apply Nat.lt_le_incl; eapply lookup_lt_Some; eauto|lia
     |apply Nat.lt_le_incl; eapply lookup_lt_Some; eauto].
  replace (j - i) with (S (j - i - 1)) by lia.
  cbn [take]. rewrite forest_size_app, forest_size_cons. lia.
Qed.

(** Everything below an earlier child comes before everything below a later
    child of the same object. *)
Lemma position_siblings path : forall t i j below_i below_j ti tj,
  i < j ->
  subtree t (path ++ i :: below_i) = Some ti ->
  subtree t (path ++ j :: below_j) = Some tj ->
  position t (path ++ i :: below_i) < position t (path ++ j :: below_j).
Proof.
  induction path as [|k path IH]; intros t i j bi bj ti tj Hij Hi Hj.
  - cbn [app subtree position] in *.
    destruct (subtrees_of t !! i) as [si|] eqn:Hsi; [|done].
    destruct (subtrees_of t !! j) as [sj|] eqn:Hsj; [|done].
    pose proof (position_lt_size _ _ _ Hi).
    pose proof (forest_size_take_lt _ _ _ _ Hsi Hij). lia.
  - cbn [app subtree position] in *.
    destruct (subtrees_of t !! k) as [sk|]; [|done].
    specialize (IH sk i j bi bj ti tj Hij Hi Hj). lia.
Qed.

Lemma forest_lookup_position d ts root path t :
  forest_subtree ts root path = Some t ->
  preorder_forest d ts !! forest_position ts root path =
  Some (d + length path, root_object t).
Proof.
  unfold forest_subtree, forest_position. intros Hsub.
  destruct (ts !! root) as [tr|] eqn:Hr; [|done].
  eapply preorder_forest_lookup; [exact Hr|]. by apply lookup_position.
Qed.

Lemma forest_position_descendant ts root path rest t :
  rest <> [] ->
  forest_subtree ts root (path ++ rest) = Some t ->
  forest_position ts root path < forest_position ts root (path ++ rest).
Proof.
  unfold forest_subtree, forest_position. intros Hrest Hsub.
  destruct (ts !! root) as [tr|]; [|done].
  pose proof (position_descendant path tr rest t Hrest Hsub). lia.
Qed.

Lemma forest_position_siblings ts root path i j below_i below_j ti tj :
  i < j ->
  forest_subtree ts root (path ++ i :: below_i) = Some ti ->
  forest_subtree ts root (path ++ j :: below_j) = Some tj ->
  forest_position ts root (path ++ i :: below_i) <
  forest_position ts root (path ++ j :: below_j).
Proof.
  unfold forest_subtree, forest_position. intros Hij Hi Hj.
  destruct (ts !! root) as [tr|]; [|done].
  pose proof (position_siblings path tr i j below_i below_j ti tj Hij Hi Hj).
  lia.
Qed.

Lemma forest_position_roots ts r1 r2 path1 path2 t1 t2 :
  r1 < r2 ->
  forest_subtree ts r1 path1 = Some t1 ->
  forest_subtree ts r2 path2 = Some t2 ->
  forest_position ts r1 path1 < forest_position ts r2 path2.
Proof.
  unfold forest_subtree, forest_position. intros Hr H1 H2.
  destruct (ts !! r1) as [s1|] eqn:Hs1; [|done].
  destruct (ts !! r2) as [s2|] eqn:Hs2; [|done].
  pose proof (position_lt_size _ _ _ H1).
  pose proof (forest_size_take_lt _ _ _ _ Hs1 Hr). lia.
Qed.

(** ** Positions of the lines in the log *)

Lemma length_flat_map_take {A B} (f : A -> list B) (l : list A) n m v :
  l !! n = Some v -> n < m ->
  length (flat_map f (take n l)) + length (f v) <=
  length (flat_map f (take m l)).
Proof.
  intros Hn Hnm. pose proof (lookup_lt_Some _ _ _ Hn) as Hlen.
  rewrite <- (take_drop_middle l n v Hn) at 2.
  rewrite take_app_ge; rewrite length_take_le; try lia.
  replace (m - n) with (S (m - n - 1)) by lia. cbn [take].
  rewrite flat_map_app. cbn [flat_map]. rewrite !length_app. lia.
Qed.

Lemma hierarchy_lines_lookup ts root path t :
  forest_subtree ts root path = Some t ->
  hierarchy_lines ts !! line_index ts root path =
  Some (node_line (length path) (root_object t)).
Proof.
  intros Hsub. unfold line_index. rewrite Hsub.
  pose proof (forest_lookup_position 0 ts root path t Hsub) as Hpos.
  unfold hierarchy_lines. cbn [Nat.add]. rewrite lookup_cons_ne_0; [|done].
  cbn [Nat.pred].
  rewrite <- (take_drop_middle _ _ _ Hpos) at 2.
  rewrite flat_map_app. cbn [flat_map]. rewrite <- !app_assoc.
  rewrite lookup_app_r; [|lia].
  match goal with |- _ !! ?k = _ =>
    replace k with (length (tween_notes (components (root_object t)))) by lia
  end.
  unfold object_lines at 1. cbn [fst snd]. rewrite <- app_assoc.
  rewrite lookup_app_r; [|lia]. by rewrite Nat.sub_diag.
Qed.

Lemma line_index_mono ts r1 path1 t1 r2 path2 t2 :
  forest_subtree ts r1 path1 = Some t1 ->
  forest_subtree ts r2 path2 = Some t2 ->
  forest_position ts r1 path1 < forest_position ts r2 path2 ->
  line_index ts r1 path1 < line_index ts r2 path2.
Proof.
  intros H1 H2 Hlt. unfold line_index. rewrite H1, H2.
  pose proof (forest_lookup_position 0 ts r1 path1 t1 H1) as Hpos.
  pose proof (length_flat_map_take object_lines _ _ _ _ Hpos Hlt) as Hlen.
  unfold object_lines at 2 in Hlen. cbn [fst snd] in Hlen.
  rewrite length_app in Hlen. cbn [length] in Hlen. lia.
Qed.

(** ** Addresses in the scene and in its unfolding *)

Lemma unfolds_object st r t : unfolds st r t -> st !! r = Some (root_object t).
Proof. by inversion 1. Qed.

Lemma unfolds_children st r t :
  unfolds st r t ->
  Forall2 (unfolds st) (children (root_object t)) (subtrees_of t).
Proof. by inversion 1. Qed.

Lemma unfolds_resolve st path : forall r t r',
  unfolds st r t ->
  resolve st r path = Some r' ->
  exists t', subtree t path = Some t' /\ unfolds st r' t'.
Proof.
  induction path as [|i path IH]; intros r t r' Hun Hres.
  - cbn in Hres. injection Hres as <-. by exists t.
  - cbn [resolve subtree] in *.
    rewrite (unfolds_object _ _ _ Hun) in Hres.
    destruct (children (root_object t) !! i) as [c|] eqn:Hc; [|done].
    destruct (Forall2_lookup_l _ _ _ _ _ (unfolds_children _ _ _ Hun) Hc)
      as (ti & Hti & Hunc).
    rewrite Hti. by apply (IH c).
Qed.

Lemma subtree_resolve st path : forall r t t',
  unfolds st r t ->
  subtree t path = Some t' ->
  exists r', resolve st r path = Some r' /\ unfolds st r' t'.
Proof.
  induction path as [|i path IH]; intros r t t' Hun Hsub.
  - cbn in Hsub. injection Hsub as <-. by exists r.
  - cbn [resolve subtree] in *.
    rewrite (unfolds_object _ _ _ Hun).
    destruct (subtrees_of t !! i) as [ti|] eqn:Hti; [|done].
    destruct (Forall2_lookup_r _ _ _ _ _ (unfolds_children _ _ _ Hun) Hti)
      as (c & Hc & Hunc).
    rewrite Hc. by apply (IH c ti).
Qed.

(** An object reached in the scene is the root of the subtree at the same
    address of the unfolding, and conversely. *)
Lemma scene_resolve_subtree sc ts root path o :
  scene_unfolds sc ts ->
  scene_resolve sc root path = Some o <->
  exists t, forest_subtree ts root path = Some t /\ root_object t = o.
Proof.
  intros Hun. unfold scene_resolve, forest_subtree. split.
  - intros Hres. destruct (roots sc !! root) as [r|] eqn:Hr; [|done].
    destruct (Forall2_lookup_l _ _ _ _ _ Hun Hr) as (t & Ht & Hunr).
    rewrite Ht.
    destruct (resolve (objects sc) r path) as [r'|] eqn:Hr'; [|done].
    destruct (unfolds_resolve _ _ _ _ _ Hunr Hr') as (t' & Ht' & Hun').
    exists t'. split; [done|].
    rewrite (unfolds_object _ _ _ Hun') in Hres. congruence.
  - intros (t' & Hsub & <-).
    destruct (ts !! root) as [t|] eqn:Ht; [|done].
    destruct (Forall2_lookup_r _ _ _ _ _ Hun Ht) as (r & Hr & Hunr).
    rewrite Hr.
    destruct (subtree_resolve _ _ _ _ _ Hunr Hsub) as (r' & -> & Hun').
    by apply unfolds_object.
Qed.

(** ** The scenarios of the specification *)

Example camera_scenario :
  printSceneHierarchy 1 (fresh camera_scene) =
  Returned tt (emit (fresh camera_scene)
    ["--- Scene Hierarchy Start ---";
     "|-- Camera (Camera)";
     "--- Scene Hierarchy End ---"]).
Proof. reflexivity. Qed.

Example lighting_scenario :
  printSceneHierarchy 2 (fresh lighting_scene) =
  Returned tt (emit (fresh lighting_scene)
    ["--- Scene Hierarchy Start ---";
     "|-- Lighting";
     "  |-- Envmap";
     "  |-- Light";
     "--- Scene Hierarchy End ---"]).
Proof. vm_compute. reflexivity. Qed.

Example sample_scene_map :
  logger (world_of (printSceneHierarchy 3 (fresh sample_scene))) =
  ["--- Scene Hierarchy Start ---";
   "|-- Scripts";
   "  |-- TweenManager__PLACE_IN_SCENE (Component.ScriptComponent, Component.ScriptComponent)";
   "  |-- ScenePrinter (Component.ScriptComponent)";
   "  |-- Main (Component.ScriptComponent)";
   "|-- Camera Object (Component.Camera)";
   "|-- Lighting";
   "  |-- Envmap (Component.LightSource)";
   "  |-- Light (Component.LightSource)";
   "|-- Orthographic Camera (Component.Camera, Component.Canvas)";
   "  |-- Full Frame Region (Component.ScreenTransform, Component.ScreenRegionComponent)";
   "Found tween component";
   "Found tween component";
   "    |-- Intro Cta (Component.ScreenTransform, Component.Image, Component.ScriptComponent-TweenScript (type:alpha, name:fadeIn), Component.ScriptComponent-TweenScript (type:alpha, name:fadeOut))";
   "--- Scene Hierarchy End ---"].
Proof. vm_compute. reflexivity. Qed.

(** A call budget below the height of the scene is not enough. *)
Example sample_scene_shallow_budget :
  result_of (printSceneHierarchy 2 (fresh sample_scene)) = inr StackExhausted.
Proof. vm_compute. reflexivity. Qed.

(** ** Scenes with a cycle *)

Lemma loop_scene_visit fuel : forall d w,
  scene w = loop_scene ->
  result_of (printObjectRecursive fuel 0 d w) = inr StackExhausted.
Proof.
  induction fuel as [|fuel IH]; intros d w Hw; [done|].
  cbn [printObjectRecursive].
  assert (Hobj : objects (scene w) !! 0 = Some (mkSceneObject "Loop" [] [0])).
  { by rewrite Hw. }
  rewrite run_bind, (run_getComponents _ _ _ Hobj). cbn [components length].
  rewrite run_bind. change (0 <? 0)%nat with false. cbv iota.
  rewrite run_ret.
  rewrite run_bind, (run_getName _ _ _ Hobj).
  rewrite run_bind, run_print.
  rewrite run_bind, (run_getChildrenCount (emit w _) _ _ Hobj).
  cbn [children length].
  rewrite for_range_succ. rewrite run_bind.
  rewrite (run_getChild (emit w _) _ _ Hobj 0 0) by done.
  specialize (IH (d + 1) (emit w [indentation_loop d "" +:+ "|-- " +:+ "Loop" +:+ ""]) Hw).
  cbn [name] in *.
  destruct (printObjectRecursive fuel 0 (d + 1) _) as [a w'|e w']; [done|].
  exact IH.
Qed.

(** On a scene where an object is its own child no call budget suffices. *)
Lemma cyclic_scene_exhausts fuel :
  result_of (printSceneHierarchy fuel (fresh loop_scene)) = inr StackExhausted.
Proof.
  unfold printSceneHierarchy.
  rewrite run_bind, run_print. rewrite run_bind.
  unfold getRootObjectsCount at 1. cbn [scene emit fresh roots loop_scene length].
  rewrite run_bind. rewrite for_range_succ. rewrite run_bind.
  rewrite (run_getRootObject _ 0 0) by done.
  pose proof (loop_scene_visit fuel 0
    (emit (fresh loop_scene) ["--- Scene Hierarchy Start ---"]) eq_refl)
    as Hloop.
  destruct (printObjectRecursive fuel 0 0 _) as [a w'|e w']; [done|].
  exact Hloop.
Qed.

(** ** Ranked scenes unfold *)

Lemma Forall_exists_Forall2 {A B} (R : A -> B -> Prop) (l : list A) :
  Forall (fun a => exists b, R a b) l -> exists k, Forall2 R l k.
Proof.
  induction 1 as [|a l [b Hb] _ [k Hk]].
  - by exists [].
  - exists (b :: k). by constructor.
Qed.

Lemma ranked_object_unfolds sc rank :
  closed_scene sc -> ranked_scene sc rank ->
  forall n r, rank r < n -> is_Some (objects sc !! r) ->
    exists t, unfolds (objects sc) r t.
Proof.
  intros [_ Hclosed] Hrank. induction n as [|n IH]; intros r Hn [o Ho]; [lia|].
  destruct (Forall_exists_Forall2 (unfolds (objects sc)) (children o)) as [ts Hts].
  { apply Forall_forall. intros c Hc. apply IH.
    - specialize (Hrank r o c Ho Hc). lia.
    - by apply (Hclosed r o c). }
  exists (Node o ts). by constructor.
Qed.

(** A closed scene whose children rank below their parents is a finite
    acyclic forest. *)
Lemma ranked_scene_unfolds sc rank :
  closed_scene sc -> ranked_scene sc rank -> exists ts, scene_unfolds sc ts.
Proof.
  intros Hclosed Hrank. apply Forall_exists_Forall2.
  apply Forall_forall. intros r Hr.
  apply (ranked_object_unfolds sc rank Hclosed Hrank (S (rank r))); [lia|].
  by apply Hclosed.
Qed.

(** ** Consequences of writing only to the Logger *)

Lemma writes_only_run {A} (m : Js A) :
  writes_only m ->
  forall sc, exists res out, forall w,
    scene w = sc -> m w = finish res (emit w out).
Proof.
  intros Hm sc. destruct (Hm sc) as (res & out & Hrun).
  exists res, out. intros w <-. rewrite <- (world_eta w) at 1. apply Hrun.
Qed.

Lemma writes_only_frame {A} (m : Js A) w :
  writes_only m -> exists out, world_of (m w) = emit w out.
Proof.
  intros Hm. destruct (writes_only_run m Hm (scene w)) as (res & out & Hrun).
  exists out. by rewrite Hrun, world_of_finish.
Qed.

Lemma writes_only_twice {A} (m : Js A) w :
  writes_only m ->
  exists res out,
    m w = finish res (emit w out) /\
    m (emit w out) = finish res (emit (emit w out) out).
Proof.
  intros Hm. destruct (writes_only_run m Hm (scene w)) as (res & out & Hrun).
  exists res, out. split; by apply Hrun.
Qed.

(** ** Descriptors *)

Lemma describe_passes entry :
  passes_check entry = true <-> is_Some (describe entry).
Proof.
  destruct entry as [c|]; cbn; [|split; [done|by intros [? ?]]].
  unfold descriptor. destruct (getTypeName c); cbn; split; eauto.
  - done.
  - by intros [? ?].
Qed.

Lemma length_descriptors cs :
  length (descriptors cs) = length (List.filter passes_check cs).
Proof.
  induction cs as [|entry cs IH]; [done|].
  cbn [descriptors omap List.filter list_omap]. fold (omap describe cs).
  fold (descriptors cs).
  destruct entry as [c|]; cbn; [|done].
  unfold descriptor. destruct (getTypeName c); cbn; by rewrite ?IH.
Qed.

Lemma descriptors_all_pass cs :
  Forall (fun entry => passes_check entry = true) cs ->
  length (descriptors cs) = length cs /\
  forall i entry, cs !! i = Some entry -> descriptors cs !! i = describe entry.
Proof.
  induction 1 as [|entry cs Hentry _ [IHlen IHnth]]; [done|].
  apply describe_passes in Hentry as [text Htext].
  unfold descriptors in *. cbn [omap list_omap]. rewrite Htext.
  fold (omap describe cs). split.
  - cbn [length]. by rewrite IHlen.
  - intros [|i] entry'; cbn.
    + by intros [= <-].
    + apply IHnth.
Qed.

Lemma descriptors_none_pass cs :
  Forall (fun entry => passes_check entry = false) cs ->
  descriptors cs = [] /\ tween_notes cs = [].
Proof.
  induction 1 as [|entry cs Hentry _ [IHd IHn]]; [done|].
  unfold descriptors in *. cbn [omap list_omap tween_notes].
  fold (omap describe cs). rewrite IHd, IHn.
  destruct entry as [c|]; cbn in *; [|done].
  unfold descriptor. by destruct (getTypeName c).
Qed.

Lemma descriptors_lookup cs i entry text :
  cs !! i = Some entry ->
  describe entry = Some text ->
  descriptors cs !! length (descriptors (take i cs)) = Some text.
Proof.
  intros Hi Htext.
  remember (length (descriptors (take i cs))) as k eqn:Hk.
  rewrite <- (take_drop_middle cs i entry Hi).
  rewrite descriptors_app. rewrite lookup_app_r by lia.
  rewrite Hk, Nat.sub_diag. unfold descriptors. cbn [omap list_omap].
  by rewrite Htext.
Qed.

Lemma tween_descriptor_longer typeName ty nm :
  tween_descriptor typeName ty nm <> typeName.
Proof.
  intros Heq. apply (f_equal String.length) in Heq.
  unfold tween_descriptor in Heq. rewrite !length_append in Heq.
  cbn [String.length] in Heq. lia.
Qed.

Lemma tween_notes_replicate cs :
  tween_notes cs =
  replicate (length (List.filter announced cs)) "Found tween component".
Proof.
  induction cs as [|entry cs IH]; [done|].
  cbn [tween_notes List.filter]. destruct (announced entry); cbn; by rewrite IH.
Qed.

(** ** The line of an addressed object *)

Lemma logged_line fuel ts w :
  scene_unfolds (scene w) ts ->
  forest_height ts <= fuel ->
  exists w',
    printSceneHierarchy fuel w = Returned tt w' /\
    logger w' = logger w ++ hierarchy_lines ts /\
    forall root path o,
      scene_resolve (scene w) root path = Some o ->
      logger w' !! (length (logger w) + line_index ts root path) =
      Some (node_line (length path) o).
Proof.
  intros Hun Hfuel. exists (emit w (hierarchy_lines ts)).
  split; [by apply hierarchy_spec|]. split; [done|].
  intros root path o Hres.
  apply (scene_resolve_subtree _ ts _ _ _ Hun) in Hres as (t & Hsub & <-).
  rewrite logger_emit, lookup_app_r by lia.
  replace (length (logger w) + line_index ts root path - length (logger w))
    with (line_index ts root path) by lia.
  by apply hierarchy_lines_lookup.
Qed.

(** ** Indentation *)

Lemma indent_replicate n : indent n = join "" (replicate n "  ").
Proof.
  induction n as [|n IH]; [done|].
  cbn [indent replicate join]. rewrite <- IH.
  destruct n; [done|]. reflexivity.
Qed.

Lemma length_indent n : String.length (indent n) = 2 * n.
Proof.
  induction n as [|n IH]; [done|].
  cbn [indent]. rewrite length_append, IH. cbn [String.length]. lia.
Qed.

Lemma leading_spaces_indent n rest :
  leading_spaces (indent n +:+ "|-- " +:+ rest) = 2 * n.
Proof.
  induction n as [|n IH]; [done|].
  cbn [indent]. rewrite append_assoc.
  change ("  " +:+ ?s) with (String " " (String " " s)).
  cbn [leading_spaces]. rewrite IH. lia.
Qed.

(** ** Every visit has an address *)

Lemma preorder_address t : forall d v,
  v ∈ preorder d t ->
  exists path t',
    subtree t path = Some t' /\ v = (d + length path, root_object t').
Proof.
  induction t as [o ts IH] using Tree_ind_nested. intros d v Hv.
  cbn [preorder] in Hv. apply elem_of_cons in Hv as [->|Hv].
  - exists [], (Node o ts). cbn. by rewrite Nat.add_0_r.
  - apply list_elem_of_In, in_flat_map in Hv as (ti & Hti & Hv).
    apply list_elem_of_In in Hti, Hv.
    apply list_elem_of_lookup in Hti as [i Hi].
    rewrite Forall_forall in IH.
    destruct (IH ti (list_elem_of_lookup_2 _ _ _ Hi) (S d) v Hv)
      as (path & t' & Hsub & ->).
    exists (i :: path), t'. cbn [subtree subtrees_of length].
    rewrite Hi. split; [done|]. f_equal. lia.
Qed.

Lemma preorder_forest_address d ts v :
  v ∈ preorder_forest d ts ->
  exists root path t,
    forest_subtree ts root path = Some t /\
    v = (d + length path, root_object t).
Proof.
  intros Hv. apply list_elem_of_In, in_flat_map in Hv as (tr & Htr & Hv).
  apply list_elem_of_In in Htr, Hv.
  apply list_elem_of_lookup in Htr as [root Hroot].
  destruct (preorder_address tr d v Hv) as (path & t & Hsub & ->).
  exists root, path, t. unfold forest_subtree. by rewrite Hroot.
Qed.

(** Every line of a hierarchy is a marker, a notice, or the line of the
    object at some address. *)
Lemma hierarchy_lines_cases ts line :
  line ∈ hierarchy_lines ts ->
  line = start_marker \/ line = end_marker \/ line = tween_notice \/
  exists root path t,
    forest_subtree ts root path = Some t /\
    line = node_line (length path) (root_object t).
Proof.
  unfold hierarchy_lines. intros Hline.
  apply elem_of_cons in Hline as [->|Hline]; [by left|].
  apply elem_of_app in Hline as [Hline|Hline].
  - apply list_elem_of_In, in_flat_map in Hline as (v & Hv & Hline).
    apply list_elem_of_In in Hv, Hline.
    unfold object_lines in Hline. apply elem_of_app in Hline as [Hnote|Hnode].
    + right. right. left. rewrite tween_notes_replicate in Hnote.
      by apply elem_of_replicate in Hnote as [-> _].
    + right. right. right. apply list_elem_of_singleton in Hnode as ->.
      destruct (preorder_forest_address 0 ts v Hv)
        as (root & path & t & Hsub & ->).
      by exists root, path, t.
  - apply list_elem_of_singleton in Hline as ->. right. by left.
Qed.

(** ** Distinct addresses, distinct lines *)

Lemma path_trichotomy (p : list nat) : forall q,
  p = q \/
  (exists rest, rest <> [] /\ q = p ++ rest) \/
  (exists rest, rest <> [] /\ p = q ++ rest) \/
  (exists common i j below_i below_j,
     i <> j /\ p = common ++ i :: below_i /\ q = common ++ j :: below_j).
Proof.
  induction p as [|i p IH]; intros [|j q].
  - by left.
  - right. left. by exists (j :: q).
  - right. right. left. by exists (i :: p).
  - destruct (decide (i = j)) as [->|Hij].
    + destruct (IH q) as [->|[(rest & Hrest & ->)|[(rest & Hrest & ->)|
        (common & a & b & ba & bb & Hab & -> & ->)]]].
      * by left.
      * right. left. by exists rest.
      * right. right. left. by exists rest.
      * right. right. right. by exists (j :: common), a, b, ba, bb.
    + right. right. right. by exists [], i, j, p, q.
Qed.

Lemma forest_subtree_prefix ts root path rest t :
  forest_subtree ts root (path ++ rest) = Some t ->
  exists t', forest_subtree ts root path = Some t'.
Proof.
  unfold forest_subtree. destruct (ts !! root) as [tr|]; [|done].
  rewrite subtree_app. destruct (subtree tr path) as [t'|]; [eauto|done].
Qed.

Lemma forest_position_inj ts r1 path1 t1 r2 path2 t2 :
  forest_subtree ts r1 path1 = Some t1 ->
  forest_subtree ts r2 path2 = Some t2 ->
  forest_position ts r1 path1 = forest_position ts r2 path2 ->
  r1 = r2 /\ path1 = path2.
Proof.
  intros H1 H2 Heq.
  destruct (Nat.lt_trichotomy r1 r2) as [Hlt|[->|Hlt]].
  - pose proof (forest_position_roots _ _ _ _ _ _ _ Hlt H1 H2). lia.
  - split; [done|].
    destruct (path_trichotomy path1 path2)
      as [->|[(rest & Hrest & ->)|[(rest & Hrest & ->)|
          (common & i & j & bi & bj & Hij & -> & ->)]]]; [done|..].
    + pose proof (forest_position_descendant _ _ _ _ _ Hrest H2). lia.
    + pose proof (forest_position_descendant _ _ _ _ _ Hrest H1). lia.
    + destruct (Nat.lt_trichotomy i j) as [Hlt|[->|Hlt]]; [|done|].
      * pose proof (forest_position_siblings _ _ _ _ _ _ _ _ _ Hlt H1 H2). lia.
      * pose proof (forest_position_siblings _ _ _ _ _ _ _ _ _ Hlt H2 H1). lia.
  - pose proof (forest_position_roots _ _ _ _ _ _ _ Hlt H2 H1). lia.
Qed.

Lemma line_index_inj ts r1 path1 t1 r2 path2 t2 :
  forest_subtree ts r1 path1 = Some t1 ->
  forest_subtree ts r2 path2 = Some t2 ->
  line_index ts r1 path1 = line_index ts r2 path2 ->
  r1 = r2 /\ path1 = path2.
Proof.
  intros H1 H2 Heq. apply (forest_position_inj ts _ _ t1 _ _ t2 H1 H2).
  destruct (Nat.lt_trichotomy (forest_position ts r1 path1)
                              (forest_position ts r2 path2)) as [Hlt|[?|Hlt]];
    [|done|].
  - pose proof (line_index_mono _ _ _ _ _ _ _ H1 H2 Hlt). lia.
  - pose proof (line_index_mono _ _ _ _ _ _ _ H2 H1 Hlt). lia.
Qed.

(** * The properties of the specification *)

(** C9. When the scene reports zero root objects, [printSceneHierarchy]
    writes exactly two lines, the start marker followed by the end marker,
    and returns; no call budget is needed for that. *)
Theorem no_roots_only_markers fuel w :
  roots (scene w) = [] ->
  printSceneHierarchy fuel w =
  Returned tt (emit w ["--- Scene Hierarchy Start ---";
                       "--- Scene Hierarchy End ---"]).
Proof.
  intros Hroots. unfold printSceneHierarchy.
  rewrite run_bind, run_print.
  rewrite run_bind, run_getRootObjectsCount. cbn [scene emit].
  rewrite Hroots. cbn [length]. rewrite run_bind.
  unfold for_range. cbn [for_from]. rewrite run_ret.
  rewrite run_print, emit_emit. reflexivity.
Qed.

Lemma no_roots_only_markers_witness :
  roots (scene (fresh empty_scene)) = [] /\
  printSceneHierarchy 0 (fresh empty_scene) =
  Returned tt (emit (fresh empty_scene)
                 ["--- Scene Hierarchy Start ---";
                  "--- Scene Hierarchy End ---"]).
Proof.
  split; [reflexivity|].
  apply (no_roots_only_markers 0 (fresh empty_scene)). reflexivity.
Defined.

(** C6. On a finite acyclic forest the traversal terminates: with a call
    budget of at least the height of the forest [printSceneHierarchy]
    returns, and the visit of an object without children returns within a
    single call, without any nested call. *)
Theorem traversal_terminates ts w :
  scene_unfolds (scene w) ts ->
  (forall fuel, forest_height ts <= fuel ->
     exists w', printSceneHierarchy fuel w = Returned tt w') /\
  (forall r o d, objects (scene w) !! r = Some o -> children o = [] ->
     exists w', printObjectRecursive 1 r d w = Returned tt w').
Proof.
  intros Hun. split.
  - intros fuel Hfuel. eexists. by apply hierarchy_spec.
  - intros r o d Ho Hleaf. eexists.
    apply (visit_spec (Node o []) 1 d); [done|].
    constructor; [done|]. rewrite Hleaf. constructor.
Qed.

Lemma traversal_terminates_witness :
  scene_unfolds (scene (fresh lighting_scene)) lighting_forest /\
  (forall fuel, forest_height lighting_forest <= fuel ->
     exists w', printSceneHierarchy fuel (fresh lighting_scene) = Returned tt w') /\
  (forall r o d,
     objects (scene (fresh lighting_scene)) !! r = Some o -> children o = [] ->
     exists w', printObjectRecursive 1 r d (fresh lighting_scene) = Returned tt w').
Proof.
  assert (Hun : scene_unfolds (scene (fresh lighting_scene)) lighting_forest)
    by repeat constructor.
  split; [exact Hun|].
  exact (traversal_terminates lighting_forest (fresh lighting_scene) Hun).
Defined.

(** C8. Neither [printSceneHierarchy] nor [printObjectRecursive] changes the
    scene graph: whatever the scene and the call budget, and whether the run
    returns or fails, the scene after the run is the scene before it (so
    every object keeps its name, children and components), and the Logger
    holds its former lines followed by the lines written. *)
Theorem scene_graph_untouched fuel w :
  (scene (world_of (printSceneHierarchy fuel w)) = scene w /\
   (forall r, objects (scene (world_of (printSceneHierarchy fuel w))) !! r =
              objects (scene w) !! r) /\
   exists out,
     logger (world_of (printSceneHierarchy fuel w)) = logger w ++ out) /\
  (forall r d,
     scene (world_of (printObjectRecursive fuel r d w)) = scene w /\
     exists out,
       logger (world_of (printObjectRecursive fuel r d w)) = logger w ++ out).
Proof.
  split.
  - destruct (writes_only_frame _ w (writes_only_printSceneHierarchy fuel))
      as [out ->].
    repeat split; by eauto.
  - intros r d.
    destruct (writes_only_frame _ w (writes_only_printObjectRecursive fuel r d))
      as [out ->].
    split; by eauto.
Qed.

(** C7. Calling [printSceneHierarchy] twice in a row on a scene writes the
    same sequence of lines both times and ends the same way both times: what
    is written depends on the scene only, not on what the Logger already
    holds. *)
Theorem printing_twice_same_lines fuel w :
  exists out,
    logger (world_of (printSceneHierarchy fuel w)) = logger w ++ out /\
    logger (world_of (printSceneHierarchy fuel
                        (world_of (printSceneHierarchy fuel w)))) =
    logger (world_of (printSceneHierarchy fuel w)) ++ out /\
    result_of (printSceneHierarchy fuel
                 (world_of (printSceneHierarchy fuel w))) =
    result_of (printSceneHierarchy fuel w).
Proof.
  destruct (writes_only_twice _ w (writes_only_printSceneHierarchy fuel))
    as (res & out & Hfirst & Hsecond).
  exists out. rewrite Hfirst, world_of_finish, Hsecond.
  rewrite !world_of_finish, !result_of_finish. by repeat split.
Qed.

(** C10. An object whose component array is not empty, but in which no entry
    passes the check (each is [null] or has no [getTypeName]), is printed with
    the suffix [" ()"]: the entries are skipped, no notice is written for
    them and no error is raised, and the visit goes on with the children. *)
Theorem unformattable_components_empty_parentheses fuel d r t w :
  unfolds (objects (scene w)) r t ->
  height t <= fuel ->
  components (root_object t) <> [] ->
  Forall (fun entry => entry = None \/
                       exists c, entry = Some c /\ getTypeName c = None)
         (components (root_object t)) ->
  printObjectRecursive fuel r d w =
  Returned tt
    (emit w ((indent d +:+ "|-- " +:+ name (root_object t) +:+ " ()") ::
             flat_map object_lines (preorder_forest (S d) (subtrees_of t)))).
Proof.
  intros Hun Hfuel Hnonempty Hskipped.
  rewrite (visit_spec t fuel d Hfuel r w Hun).
  destruct t as [o ts]. cbn [root_object subtrees_of preorder flat_map] in *.
  destruct (descriptors_none_pass (components o)) as [Hd Hn].
  { eapply Forall_impl; [exact Hskipped|].
    intros entry [->|(c & -> & Hc)]; cbn; [done|by rewrite Hc]. }
  unfold object_lines at 1, node_line, componentsInfo. cbn [fst snd].
  rewrite Hn, Hd. destruct (components o); [done|]. reflexivity.
Qed.

Lemma unformattable_components_empty_parentheses_witness :
  unfolds (objects (scene (fresh ghost_scene))) 0 (Node ghost_object []) /\
  height (Node ghost_object []) <= 1 /\
  printObjectRecursive 1 0 0 (fresh ghost_scene) =
  Returned tt (emit (fresh ghost_scene) ["|-- Ghost ()"]).
Proof.
  assert (Hun : unfolds (objects (scene (fresh ghost_scene))) 0
                  (Node ghost_object [])) by repeat constructor.
  assert (Hh : height (Node ghost_object []) <= 1) by (cbn; lia).
  split; [exact Hun|]. split; [exact Hh|].
  apply (unformattable_components_empty_parentheses 1 0 0
           (Node ghost_object []) (fresh ghost_scene) Hun Hh).
  - discriminate.
  - constructor; [left; reflexivity|].
    constructor; [right; eexists; split; reflexivity|].
    constructor.
Defined.

(** C3, as stated, fails: for the component array [[null]], of one entry,
    the array of names built by the script is empty, and the line ends with
    an empty pair of parentheses, not with a list of one descriptor. *)
Lemma suffix_counts_every_entry_counterexample :
  printSceneHierarchy 1 (fresh null_scene) =
  Returned tt (emit (fresh null_scene)
    ["--- Scene Hierarchy Start ---";
     "|-- Ghost ()";
     "--- Scene Hierarchy End ---"]) /\
  exists names,
    for_range (length (components null_object))
      (component_round (components null_object)) [] (fresh null_scene) =
    Returned names (fresh null_scene) /\
    "|-- Ghost ()" = "|-- Ghost" +:+ " (" +:+ join ", " names +:+ ")" /\
    length names <> length (components null_object).
Proof.
  split; [reflexivity|]. exists []. repeat split. cbn. lia.
Qed.

(** C3, amended. For every object of a finite acyclic scene: if its component
    array is empty the line is just indentation, marker and name; otherwise
    the line ends with one parenthesized list, joined with comma and space,
    of the descriptors of the entries that pass the check
    [component && component.getTypeName], in the order of the array.  There
    are as many descriptors as entries that pass; when every entry passes
    there are as many as entries, the i-th descriptor being that of the i-th
    entry. *)
Theorem component_suffix_law fuel ts w :
  scene_unfolds (scene w) ts ->
  forest_height ts <= fuel ->
  exists w',
    printSceneHierarchy fuel w = Returned tt w' /\
    forall root path o,
      scene_resolve (scene w) root path = Some o ->
      exists names,
        logger w' !! (length (logger w) + line_index ts root path) =
        Some (indent (length path) +:+ "|-- " +:+ name o +:+
              match components o with
              | [] => ""
              | _ :: _ => " (" +:+ join ", " names +:+ ")"
              end) /\
        (components o = [] ->
         logger w' !! (length (logger w) + line_index ts root path) =
         Some (indent (length path) +:+ "|-- " +:+ name o)) /\
        names = omap describe (components o) /\
        length names = length (List.filter passes_check (components o)) /\
        (Forall (fun entry => passes_check entry = true) (components o) ->
         length names = length (components o) /\
         forall i entry, components o !! i = Some entry ->
                         names !! i = describe entry).
Proof.
  intros Hun Hfuel.
  destruct (logged_line fuel ts w Hun Hfuel) as (w' & Hrun & _ & Hline).
  exists w'. split; [exact Hrun|].
  intros root path o Hres. exists (descriptors (components o)).
  rewrite (Hline root path o Hres). repeat split.
  - intros Hempty. unfold node_line. rewrite Hempty. cbn [componentsInfo].
    by rewrite append_nil_r.
  - apply length_descriptors.
  - by apply descriptors_all_pass.
  - by apply descriptors_all_pass.
Qed.

Lemma component_suffix_law_witness :
  scene_unfolds (scene (fresh tween_scene)) tween_forest /\
  forest_height tween_forest <= 1 /\
  exists w',
    printSceneHierarchy 1 (fresh tween_scene) = Returned tt w' /\
    logger w' !! 2 =
    Some "|-- Intro Cta (Component.ScriptComponent-TweenScript (type:alpha, name:fadeIn))".
Proof.
  assert (Hun : scene_unfolds (scene (fresh tween_scene)) tween_forest)
    by repeat constructor.
  assert (Hh : forest_height tween_forest <= 1) by (cbn; lia).
  split; [exact Hun|]. split; [exact Hh|].
  destruct (component_suffix_law 1 tween_forest (fresh tween_scene) Hun Hh)
    as (w' & Hrun & Hlines).
  exists w'. split; [exact Hrun|].
  destruct (Hlines 0 [] intro_cta eq_refl) as (names & Hline & _ & Hnames & _).
  rewrite Hnames in Hline. exact Hline.
Defined.

(** C1, as stated, fails: a component that exposes [tweenType] but no
    [tweenName] is not rendered as just its type name; the script prints the
    tween form, with [undefined] in the place of the name. *)
Lemma tween_form_needs_both_counterexample :
  exposes (tweenType half_tween) = true /\
  exposes (tweenName half_tween) = false /\
  printSceneHierarchy 1 (fresh half_tween_scene) =
  Returned tt (emit (fresh half_tween_scene)
    ["--- Scene Hierarchy Start ---";
     "Found tween component";
     "|-- Intro Cta (Component.ScriptComponent-TweenScript (type:alpha, name:undefined))";
     "--- Scene Hierarchy End ---"]) /\
  "|-- Intro Cta (Component.ScriptComponent-TweenScript (type:alpha, name:undefined))" <>
  "|-- Intro Cta (" +:+
    descriptor_if_both "Component.ScriptComponent" half_tween +:+ ")".
Proof. repeat split. discriminate. Qed.

(** C1, amended. For every object of a finite acyclic scene and every entry
    of its component array that passes the check
    [component && component.getTypeName], the descriptor in the object's line
    is ["<typeName>-TweenScript (type:<tweenType>, name:<tweenName>)"]
    exactly when [tweenType] is truthy, [tweenName] not being consulted (both
    properties are converted to strings, an absent one giving [undefined]);
    otherwise it is just the type name. *)
Theorem tween_formatting_law fuel ts w :
  scene_unfolds (scene w) ts ->
  forest_height ts <= fuel ->
  exists w',
    printSceneHierarchy fuel w = Returned tt w' /\
    forall root path o,
      scene_resolve (scene w) root path = Some o ->
      logger w' !! (length (logger w) + line_index ts root path) =
      Some (indent (length path) +:+ "|-- " +:+ name o +:+
            componentsInfo (components o)) /\
      forall i c typeName,
        components o !! i = Some (Some c) ->
        getTypeName c = Some typeName ->
        let tweenInfo :=
          typeName +:+ "-TweenScript (type:" +:+ toString (tweenType c) +:+
          ", name:" +:+ toString (tweenName c) +:+ ")" in
        exists text,
          descriptors (components o)
            !! length (descriptors (take i (components o))) = Some text /\
          (truthy (tweenType c) = true -> text = tweenInfo) /\
          (truthy (tweenType c) = false -> text = typeName) /\
          (text = tweenInfo <-> truthy (tweenType c) = true).
Proof.
  intros Hun Hfuel.
  destruct (logged_line fuel ts w Hun Hfuel) as (w' & Hrun & _ & Hline).
  exists w'. split; [exact Hrun|].
  intros root path o Hres. split; [by apply Hline|].
  intros i c typeName Hi Hname tweenInfo.
  assert (Hdesc : describe (Some c) =
                  Some (if truthy (tweenType c) then tweenInfo else typeName)).
  { cbn. unfold descriptor. by rewrite Hname. }
  eexists. split; [eapply descriptors_lookup; [exact Hi|exact Hdesc]|].
  destruct (truthy (tweenType c)); repeat split; try done.
  intros Heq. symmetry in Heq.
  by apply tween_descriptor_longer in Heq.
Qed.

Lemma tween_formatting_law_witness :
  scene_unfolds (scene (fresh half_tween_scene)) [Node half_tween_object []] /\
  forest_height [Node half_tween_object []] <= 1 /\
  exists w',
    printSceneHierarchy 1 (fresh half_tween_scene) = Returned tt w' /\
    logger w' !! 2 =
    Some "|-- Intro Cta (Component.ScriptComponent-TweenScript (type:alpha, name:undefined))" /\
    descriptors (components half_tween_object) !! 0 =
    Some "Component.ScriptComponent-TweenScript (type:alpha, name:undefined)".
Proof.
  assert (Hun : scene_unfolds (scene (fresh half_tween_scene))
                  [Node half_tween_object []]) by repeat constructor.
  assert (Hh : forest_height [Node half_tween_object []] <= 1) by (cbn; lia).
  split; [exact Hun|]. split; [exact Hh|].
  destruct (tween_formatting_law 1 [Node half_tween_object []]
              (fresh half_tween_scene) Hun Hh) as (w' & Hrun & Hlines).
  exists w'. split; [exact Hrun|].
  destruct (Hlines 0 [] half_tween_object eq_refl) as [Hline Hdesc].
  split; [exact Hline|].
  destruct (Hdesc 0 half_tween "Component.ScriptComponent" eq_refl eq_refl)
    as (text & Htext & Htween & _).
  rewrite (Htween eq_refl) in Htext. exact Htext.
Defined.

(** C2, as stated, fails: for a scene of one object with one tween the script
    writes four lines, the notice [Found tween component] coming before the
    line of the object, and not the three lines of one object and two
    markers. *)
Lemma one_line_per_node_counterexample :
  scene_unfolds tween_scene tween_forest /\
  printSceneHierarchy 1 (fresh tween_scene) =
  Returned tt (emit (fresh tween_scene)
    ["--- Scene Hierarchy Start ---";
     "Found tween component";
     "|-- Intro Cta (Component.ScriptComponent-TweenScript (type:alpha, name:fadeIn))";
     "--- Scene Hierarchy End ---"]) /\
  logger (world_of (printSceneHierarchy 1 (fresh tween_scene))) <>
  start_marker ::
    map (fun v : nat * SceneObject => node_line v.1 v.2)
        (preorder_forest 0 tween_forest) ++ [end_marker] /\
  length (logger (world_of (printSceneHierarchy 1 (fresh tween_scene)))) <>
  forest_size tween_forest + 2.
Proof.
  split; [repeat constructor|]. split; [reflexivity|].
  split; [discriminate|]. vm_compute. discriminate.
Qed.

(** C2, amended. On a finite acyclic scene [printSceneHierarchy] writes the
    start marker, then for each object in turn one notice
    [Found tween component] per component that passes the check with a truthy
    [tweenType], followed by the one line of the object, which is exactly
    indentation, ["|-- "], name and component suffix, and finally the end
    marker; no other line is written.  That makes one line per object, two
    markers and the notices; without any such component it is exactly one
    line per object and the two markers. *)
Theorem one_line_per_node_and_notices fuel ts w :
  scene_unfolds (scene w) ts ->
  forest_height ts <= fuel ->
  exists out,
    printSceneHierarchy fuel w = Returned tt (emit w out) /\
    out =
    "--- Scene Hierarchy Start ---" ::
      flat_map
        (fun v : nat * SceneObject =>
           replicate (length (List.filter announced (components v.2)))
                     "Found tween component" ++
           [indent v.1 +:+ "|-- " +:+ name v.2 +:+
            componentsInfo (components v.2)])
        (preorder_forest 0 ts) ++
      ["--- Scene Hierarchy End ---"] /\
    length (preorder_forest 0 ts) = forest_size ts /\
    length out = forest_size ts + 2 + notice_count ts /\
    (notice_count ts = 0 ->
     out = "--- Scene Hierarchy Start ---" ::
             map (fun v : nat * SceneObject =>
                    indent v.1 +:+ "|-- " +:+ name v.2 +:+
                    componentsInfo (components v.2))
                 (preorder_forest 0 ts) ++
             ["--- Scene Hierarchy End ---"]).
Proof.
  intros Hun Hfuel. exists (hierarchy_lines ts).
  split; [by apply hierarchy_spec|].
  unfold hierarchy_lines, notice_count.
  generalize (length_preorder_forest 0 ts).
  generalize (preorder_forest 0 ts) as visits. intros visits Hsize.
  split; [|split; [exact Hsize|split]].
  - clear Hsize. f_equal. f_equal.
    induction visits as [|v visits IH]; [done|].
    cbn [flat_map]. rewrite IH. f_equal.
    unfold object_lines. by rewrite tween_notes_replicate.
  - cbn [length]. rewrite length_app. cbn [length].
    rewrite <- Hsize. clear Hsize.
    induction visits as [|v visits IH]; [done|].
    cbn [flat_map length]. rewrite !length_app. unfold object_lines at 1.
    rewrite length_app. cbn [length]. lia.
  - intros Hnone. f_equal. f_equal. clear Hsize.
    induction visits as [|v visits IH]; [done|].
    cbn [flat_map map] in *. rewrite length_app in Hnone.
    rewrite IH by lia. unfold object_lines at 1.
    destruct (tween_notes (components v.2)); [done|cbn in Hnone; lia].
Qed.

Lemma one_line_per_node_and_notices_witness :
  scene_unfolds (scene (fresh lighting_scene)) lighting_forest /\
  forest_height lighting_forest <= 2 /\
  notice_count lighting_forest = 0 /\
  printSceneHierarchy 2 (fresh lighting_scene) =
  Returned tt (emit (fresh lighting_scene)
    ["--- Scene Hierarchy Start ---";
     "|-- Lighting";
     "  |-- Envmap";
     "  |-- Light";
     "--- Scene Hierarchy End ---"]).
Proof.
  assert (Hun : scene_unfolds (scene (fresh lighting_scene)) lighting_forest)
    by repeat constructor.
  assert (Hh : forest_height lighting_forest <= 2) by (cbn; lia).
  split; [exact Hun|]. split; [exact Hh|]. split; [reflexivity|].
  destruct (one_line_per_node_and_notices 2 lighting_forest
              (fresh lighting_scene) Hun Hh)
    as (out & Hrun & _ & _ & _ & Hplain).
  rewrite Hrun. rewrite (Hplain eq_refl). reflexivity.
Defined.

(** C4. On a finite acyclic scene, the line of the object reached from a
    root by a path of child indices begins with as many repetitions of two
    spaces as the path is long (none for a root), followed by ["|-- "]: it
    has exactly twice that many leading spaces.  Every line written is a
    marker, a notice, or such a line. *)
Theorem depth_indentation_law fuel ts w :
  scene_unfolds (scene w) ts ->
  forest_height ts <= fuel ->
  exists w' out,
    printSceneHierarchy fuel w = Returned tt w' /\
    logger w' = logger w ++ out /\
    (forall root path o,
       scene_resolve (scene w) root path = Some o ->
       exists line,
         logger w' !! (length (logger w) + line_index ts root path) =
         Some line /\
         line = join "" (replicate (length path) "  ") +:+ "|-- " +:+
                (name o +:+ componentsInfo (components o)) /\
         leading_spaces line = 2 * length path) /\
    (forall line,
       line ∈ out ->
       line = "--- Scene Hierarchy Start ---" \/
       line = "--- Scene Hierarchy End ---" \/
       line = "Found tween component" \/
       exists root path o rest,
         scene_resolve (scene w) root path = Some o /\
         line = join "" (replicate (length path) "  ") +:+ "|-- " +:+ rest /\
         leading_spaces line = 2 * length path).
Proof.
  intros Hun Hfuel.
  destruct (logged_line fuel ts w Hun Hfuel) as (w' & Hrun & Hlog & Hline).
  exists w', (hierarchy_lines ts). repeat split; [done..| |].
  - intros root path o Hres. eexists. split; [by apply Hline|].
    unfold node_line. rewrite <- indent_replicate. split; [done|].
    apply leading_spaces_indent.
  - intros line Hin.
    destruct (hierarchy_lines_cases ts line Hin)
      as [->|[->|[->|(root & path & t & Hsub & ->)]]]; [by eauto..|].
    right. right. right.
    exists root, path, (root_object t),
      (name (root_object t) +:+ componentsInfo (components (root_object t))).
    split; [apply (scene_resolve_subtree _ ts _ _ _ Hun); by eauto|].
    unfold node_line. rewrite <- indent_replicate. split; [done|].
    apply leading_spaces_indent.
Qed.

Lemma depth_indentation_law_witness :
  scene_unfolds (scene (fresh lighting_scene)) lighting_forest /\
  forest_height lighting_forest <= 2 /\
  exists w',
    printSceneHierarchy 2 (fresh lighting_scene) = Returned tt w' /\
    logger w' !! 3 = Some "  |-- Light" /\
    leading_spaces "  |-- Light" = 2.
Proof.
  assert (Hun : scene_unfolds (scene (fresh lighting_scene)) lighting_forest)
    by repeat constructor.
  assert (Hh : forest_height lighting_forest <= 2) by (cbn; lia).
  split; [exact Hun|]. split; [exact Hh|].
  destruct (depth_indentation_law 2 lighting_forest (fresh lighting_scene)
              Hun Hh) as (w' & out & Hrun & _ & Hlines & _).
  exists w'. split; [exact Hrun|].
  destruct (Hlines 0 [1] light eq_refl) as (line & Hline & -> & Hspaces).
  split; [exact Hline|exact Hspaces].
Defined.

(** C5. On a finite acyclic scene the lines of the objects follow the
    depth-first pre-order: what is written is, between the markers, the
    pre-order of the scene, object by object; the line of an object comes
    before the lines of all its descendants; everything below an earlier
    child comes before everything below a later child of the same object,
    children being numbered as [getChild] numbers them; everything below an
    earlier root comes before everything below a later root, roots being
    numbered as [getRootObject] numbers them; and each address has a line of
    its own, so that no object is left out or merged with another, however
    often it is reached. *)
Theorem depth_first_preorder fuel ts w :
  scene_unfolds (scene w) ts ->
  forest_height ts <= fuel ->
  exists w',
    printSceneHierarchy fuel w = Returned tt w' /\
    logger w' =
      logger w ++
      "--- Scene Hierarchy Start ---" ::
        flat_map object_lines (preorder_forest 0 ts) ++
        ["--- Scene Hierarchy End ---"] /\
    length (preorder_forest 0 ts) = forest_size ts /\
    (forall root path o,
       scene_resolve (scene w) root path = Some o ->
       logger w' !! (length (logger w) + line_index ts root path) =
       Some (node_line (length path) o)) /\
    (forall root path rest o,
       rest <> [] ->
       scene_resolve (scene w) root (path ++ rest) = Some o ->
       line_index ts root path < line_index ts root (path ++ rest)) /\
    (forall root path i j below_i below_j oi oj,
       i < j ->
       scene_resolve (scene w) root (path ++ i :: below_i) = Some oi ->
       scene_resolve (scene w) root (path ++ j :: below_j) = Some oj ->
       line_index ts root (path ++ i :: below_i) <
       line_index ts root (path ++ j :: below_j)) /\
    (forall r1 r2 path1 path2 o1 o2,
       r1 < r2 ->
       scene_resolve (scene w) r1 path1 = Some o1 ->
       scene_resolve (scene w) r2 path2 = Some o2 ->
       line_index ts r1 path1 < line_index ts r2 path2) /\
    (forall r1 r2 path1 path2 o1 o2,
       scene_resolve (scene w) r1 path1 = Some o1 ->
       scene_resolve (scene w) r2 path2 = Some o2 ->
       line_index ts r1 path1 = line_index ts r2 path2 ->
       r1 = r2 /\ path1 = path2).
Proof.
  intros Hun Hfuel.
  destruct (logged_line fuel ts w Hun Hfuel) as (w' & Hrun & Hlog & Hline).
  pose proof (scene_resolve_subtree (scene w) ts) as Haddr.
  exists w'. split; [done|]. split; [done|].
  split; [apply length_preorder_forest|]. split; [done|].
  split; [|split; [|split]].
  - intros root path rest o Hrest Hres.
    apply Haddr in Hres as (t & Hsub & _); [|done].
    destruct (forest_subtree_prefix _ _ _ _ _ Hsub) as [t' Hsub'].
    eapply line_index_mono; [done..|].
    by eapply forest_position_descendant.
  - intros root path i j bi bj oi oj Hij Hi Hj.
    apply Haddr in Hi as (ti & Hi & _); [|done].
    apply Haddr in Hj as (tj & Hj & _); [|done].
    eapply line_index_mono; [done..|].
    by eapply forest_position_siblings.
  - intros r1 r2 p1 p2 o1 o2 Hr H1 H2.
    apply Haddr in H1 as (t1 & H1 & _); [|done].
    apply Haddr in H2 as (t2 & H2 & _); [|done].
    eapply line_index_mono; [done..|].
    by eapply forest_position_roots.
  - intros r1 r2 p1 p2 o1 o2 H1 H2 Heq.
    apply Haddr in H1 as (t1 & H1 & _); [|done].
    apply Haddr in H2 as (t2 & H2 & _); [|done].
    by eapply line_index_inj.
Qed.

Lemma depth_first_preorder_witness :
  scene_unfolds (scene (fresh lighting_scene)) lighting_forest /\
  forest_height lighting_forest <= 2 /\
  exists w',
    printSceneHierarchy 2 (fresh lighting_scene) = Returned tt w' /\
    logger w' = ["--- Scene Hierarchy Start ---";
                 "|-- Lighting"; "  |-- Envmap"; "  |-- Light";
                 "--- Scene Hierarchy End ---"] /\
    line_index lighting_forest 0 [] < line_index lighting_forest 0 [0] /\
    line_index lighting_forest 0 [0] < line_index lighting_forest 0 [1].
Proof.
  assert (Hun : scene_unfolds (scene (fresh lighting_scene)) lighting_forest)
    by repeat constructor.
  assert (Hh : forest_height lighting_forest <= 2) by (cbn; lia).
  split; [exact Hun|]. split; [exact Hh|].
  destruct (depth_first_preorder 2 lighting_forest (fresh lighting_scene)
              Hun Hh)
    as (w' & Hrun & Hlog & _ & _ & Hdesc & Hsib & _).
  exists w'. split; [exact Hrun|]. split; [exact Hlog|]. split.
  - apply (Hdesc 0 [] [0] envmap); [discriminate|reflexivity].
  - apply (Hsib 0 [] 0 1 [] [] envmap light); [lia|reflexivity|reflexivity].
Defined.

(** * Further properties of the script *)

(** ** One step of a visit *)

Lemma visit_step fuel r d w o :
  objects (scene w) !! r = Some o ->
  printObjectRecursive (S fuel) r d w =
  for_range (length (children o))
    (fun i _ => child ← getChild r i; printObjectRecursive fuel child (d + 1))
    tt (emit w (object_lines (d, o))).
Proof.
  intros Hr. cbn [printObjectRecursive].
  rewrite run_bind, (run_getComponents _ _ _ Hr). rewrite run_bind.
  assert (Hinfo :
    (if (0 <? length (components o))%nat
     then componentNames ← for_range (length (components o))
                             (component_round (components o)) [];
          ret (" (" +:+ join ", " componentNames +:+ ")")
     else ret "") w =
    Returned (componentsInfo (components o))
             (emit w (tween_notes (components o)))).
  { destruct (components o) as [|c cs] eqn:Hcs.
    - simpl. by rewrite emit_nil.
    - change (0 <? length (c :: cs))%nat with true. cbv iota.
      rewrite run_bind, component_loop. reflexivity. }
  rewrite Hinfo. clear Hinfo.
  rewrite run_bind, (run_getName _ _ o) by done.
  rewrite run_bind, run_print, emit_emit.
  rewrite run_bind, (run_getChildrenCount _ _ o) by done.
  rewrite indentation_loop_indent. reflexivity.
Qed.

Lemma writes_only_visit_child fuel r d i (u : unit) :
  writes_only (child ← getChild r i; printObjectRecursive fuel child d).
Proof.
  apply writes_only_bind; [apply writes_only_getChild|].
  intros c. apply writes_only_printObjectRecursive.
Qed.

Lemma writes_only_visit_root fuel i (u : unit) :
  writes_only (rootObject ← getRootObject i;
               printObjectRecursive fuel rootObject 0).
Proof.
  apply writes_only_bind; [apply writes_only_getRootObject|].
  intros c. apply writes_only_printObjectRecursive.
Qed.

(** ** Scenes with a cycle, in general *)

Lemma resolve_app st path : forall r rest,
  resolve st r (path ++ rest) =
  match resolve st r path with
  | Some r' => resolve st r' rest
  | None => None
  end.
Proof.
  induction path as [|i path IH]; intros r rest; [done|].
  cbn [app resolve]. destruct (st !! r) as [o|]; [|done].
  destruct (children o !! i); [apply IH|done].
Qed.

Lemma for_from_never_returns {V} sc n : forall start (body : nat -> V -> Js V) acc i,
  (forall j a, writes_only (body j a)) ->
  i < n ->
  (forall a, never_returns_on sc (body (start + i) a)) ->
  never_returns_on sc (for_from n start body acc).
Proof.
  induction n as [|n IH]; intros start body acc i Hwo Hi Hnever w Hw; [lia|].
  cbn [for_from]. rewrite run_bind.
  destruct (writes_only_run _ (Hwo start acc) sc) as (res & out & Hrun).
  rewrite (Hrun w Hw). destruct res as [acc'|e]; cbn [finish]; [|by eauto].
  destruct i as [|i].
  - destruct (Hnever acc w Hw) as (e & w' & Hthrew).
    rewrite Nat.add_0_r, (Hrun w Hw) in Hthrew. discriminate.
  - apply (IH (S start) body acc' i); [done|lia| |done].
    intros a. rewrite Nat.add_succ_comm. apply Hnever.
Qed.

Lemma never_returns_visit_child sc fuel r o d i c :
  objects sc !! r = Some o ->
  children o !! i = Some c ->
  never_returns_on sc (printObjectRecursive fuel c d) ->
  never_returns_on sc
    (child ← getChild r i; printObjectRecursive fuel child d).
Proof.
  intros Hr Hc Hnever w Hw. rewrite run_bind.
  rewrite (run_getChild w r o) with (c := c); [|by rewrite Hw|done].
  by apply Hnever.
Qed.

Lemma cycle_visit_never_returns sc fuel : forall r cycle d,
  cycle <> [] ->
  resolve (objects sc) r cycle = Some r ->
  never_returns_on sc (printObjectRecursive fuel r d).
Proof.
  induction fuel as [|fuel IH]; intros r cycle d Hne Hcycle w Hw.
  - cbn. by eauto.
  - destruct cycle as [|i cycle]; [done|]. cbn [resolve] in Hcycle.
    destruct (objects sc !! r) as [o|] eqn:Hr; [|done].
    destruct (children o !! i) as [c|] eqn:Hc; [|done].
    rewrite (visit_step fuel r d w o) by (by rewrite Hw).
    apply (for_from_never_returns sc _ 0 _ tt i).
    + intros j a. apply writes_only_visit_child. exact a.
    + by eapply lookup_lt_Some.
    + intros []. cbn [Nat.add].
      eapply never_returns_visit_child; [done..|].
      apply (IH c (cycle ++ [i])); [by destruct cycle|].
      rewrite resolve_app, Hcycle. cbn [resolve]. by rewrite Hr, Hc.
    + done.
Qed.

Lemma reach_cycle_never_returns sc r' cycle :
  cycle <> [] ->
  resolve (objects sc) r' cycle = Some r' ->
  forall path fuel r d,
    resolve (objects sc) r path = Some r' ->
    never_returns_on sc (printObjectRecursive fuel r d).
Proof.
  intros Hne Hcycle. induction path as [|i path IH]; intros fuel r d Hpath.
  - cbn in Hpath. injection Hpath as ->.
    by apply (cycle_visit_never_returns sc fuel r' cycle).
  - destruct fuel as [|fuel]; [intros w Hw; cbn; by eauto|].
    cbn [resolve] in Hpath.
    destruct (objects sc !! r) as [o|] eqn:Hr; [|done].
    destruct (children o !! i) as [c|] eqn:Hc; [|done].
    intros w Hw. rewrite (visit_step fuel r d w o) by (by rewrite Hw).
    apply (for_from_never_returns sc _ 0 _ tt i).
    + intros j a. apply writes_only_visit_child. exact a.
    + by eapply lookup_lt_Some.
    + intros []. cbn [Nat.add].
      eapply never_returns_visit_child; [done..|]. by apply IH.
    + done.
Qed.

(** X1. The script has no guard against cycles: when an object that is its
    own descendant can be reached from a root, neither the visit of that
    root nor [printSceneHierarchy] returns, whatever the call budget. *)
Theorem cyclic_scene_never_returns fuel w root r0 path r cycle :
  roots (scene w) !! root = Some r0 ->
  resolve (objects (scene w)) r0 path = Some r ->
  cycle <> [] ->
  resolve (objects (scene w)) r cycle = Some r ->
  (forall d, exists e w', printObjectRecursive fuel r0 d w = Threw e w') /\
  exists e w', printSceneHierarchy fuel w = Threw e w'.
Proof.
  intros Hroot Hpath Hne Hcycle.
  pose proof (reach_cycle_never_returns (scene w) r cycle Hne Hcycle path)
    as Hvisit.
  split; [intros d; by apply (Hvisit fuel r0 d Hpath w)|].
  unfold printSceneHierarchy.
  rewrite run_bind, run_print. rewrite run_bind, run_getRootObjectsCount.
  rewrite run_bind. cbn [scene emit].
  destruct (for_from_never_returns (scene w) (length (roots (scene w))) 0
              (fun i (_ : unit) => rootObject ← getRootObject i;
                                   printObjectRecursive fuel rootObject 0)
              tt root) with (w := emit w ["--- Scene Hierarchy Start ---"])
    as (e & w' & Hloop).
  - intros j a. by apply writes_only_visit_root.
  - by eapply lookup_lt_Some.
  - intros [] w0 Hw0. cbn [Nat.add]. rewrite run_bind.
    rewrite (run_getRootObject w0 root r0) by (by rewrite Hw0).
    by apply (Hvisit fuel r0 0 Hpath).
  - done.
  - unfold for_range. rewrite Hloop. by eauto.
Qed.

Lemma cyclic_scene_never_returns_witness :
  roots (scene (fresh detour_scene)) !! 0 = Some 0 /\
  resolve (objects (scene (fresh detour_scene))) 0 [0] = Some 1 /\
  resolve (objects (scene (fresh detour_scene))) 1 [0; 0] = Some 1 /\
  exists e w', printSceneHierarchy 1000 (fresh detour_scene) = Threw e w'.
Proof.
  split; [reflexivity|]. split; [reflexivity|]. split; [reflexivity|].
  apply (cyclic_scene_never_returns 1000 (fresh detour_scene) 0 0 [0] 1 [0; 0]);
    [reflexivity|reflexivity|discriminate|reflexivity].
Defined.

(** ** A call budget below the height *)

Lemma forest_height_cons t ts :
  forest_height (t :: ts) = Nat.max (height t) (forest_height ts).
Proof. reflexivity. Qed.

Lemma visit_loop_exhausts fuel d ts :
  Forall (visit_exhausts fuel d) ts ->
  forall refs (body : nat -> unit -> Js unit) w,
    Forall2 (unfolds (objects (scene w))) refs ts ->
    (forall i c w', refs !! i = Some c -> scene w' = scene w ->
       body i tt w' = printObjectRecursive fuel c d w') ->
    fuel < forest_height ts ->
    exists out,
      for_range (length refs) body tt w = Threw StackExhausted (emit w out) /\
      out `prefix_of` flat_map object_lines (preorder_forest d ts).
Proof.
  induction 1 as [|t ts Ht _ IH]; intros refs body w Hun Hbody Hfuel.
  - cbn in Hfuel. lia.
  - apply Forall2_cons_inv_r in Hun as (c & refs' & Hc & Hrefs & ->).
    cbn [length]. rewrite for_range_succ. rewrite (Hbody 0 c w) by done.
    unfold preorder_forest. cbn [flat_map]. rewrite flat_map_app.
    destruct (decide (height t <= fuel)) as [Hle|Hgt].
    + rewrite (visit_spec t fuel d Hle c w Hc).
      destruct (IH refs' (fun i => body (S i))
                  (emit w (flat_map object_lines (preorder d t))))
        as (out & Hrun & Hpre).
      * exact Hrefs.
      * intros i c' w' Hi Hw'. apply Hbody; [done|]. by rewrite Hw'.
      * rewrite forest_height_cons in Hfuel. lia.
      * eexists. rewrite Hrun, emit_emit. split; [done|].
        by apply prefix_app.
    + destruct (Ht c w Hc) as (out & Hrun & Hpre); [lia|].
      exists out. rewrite Hrun. split; [done|]. by apply prefix_app_r.
Qed.

Lemma visit_exhausts_spec t : forall fuel d, visit_exhausts fuel d t.
Proof.
  induction t as [o ts IH] using Tree_ind_nested.
  intros fuel d r w Hun Hfuel.
  inversion Hun as [r' o' ts' Hr Hkids]; subst.
  destruct fuel as [|fuel].
  - exists []. cbn. rewrite emit_nil. split; [done|]. apply prefix_nil.
  - rewrite (visit_step fuel r d w o Hr).
    destruct (visit_loop_exhausts fuel (S d) ts) with
      (refs := children o)
      (body := fun i (_ : unit) =>
                 child ← getChild r i; printObjectRecursive fuel child (d + 1))
      (w := emit w (object_lines (d, o))) as (out & Hrun & Hpre).
    + eapply Forall_impl; [exact IH|]. intros t Ht. apply Ht.
    + exact Hkids.
    + intros i c w' Hi Hw'. rewrite run_bind.
      rewrite (run_getChild _ _ o) with (c := c); [|by rewrite Hw'|done].
      by rewrite Nat.add_1_r.
    + cbn [height] in Hfuel. unfold forest_height. lia.
    + eexists. rewrite Hrun, emit_emit. split; [done|].
      cbn [preorder flat_map]. by apply prefix_app.
Qed.

(** X2. The recursion nests as deep as the scene is high.  On a finite
    acyclic scene, a call budget below the height of the forest makes
    [printSceneHierarchy] fail by exhaustion of the budget; by then it has
    written the start marker and a part of the dump which is a proper prefix
    of what a run with a sufficient budget writes.  So the call returns
    exactly when the budget is at least the height. *)
Theorem budget_below_height_exhausts fuel ts w :
  scene_unfolds (scene w) ts ->
  fuel < forest_height ts ->
  exists part full,
    printSceneHierarchy fuel w = Threw StackExhausted (emit w part) /\
    printSceneHierarchy (forest_height ts) w = Returned tt (emit w full) /\
    part `prefix_of` full /\
    length part < length full /\
    head part = Some "--- Scene Hierarchy Start ---".
Proof.
  intros Hun Hfuel.
  destruct (visit_loop_exhausts fuel 0 ts) with
    (refs := roots (scene w))
    (body := fun i (_ : unit) =>
               rootObject ← getRootObject i;
               printObjectRecursive fuel rootObject 0)
    (w := emit w ["--- Scene Hierarchy Start ---"]) as (mid & Hrun & Hpre).
  - apply Forall_forall. intros t _. apply visit_exhausts_spec.
  - exact Hun.
  - intros i c w' Hi Hw'. rewrite run_bind.
    by rewrite (run_getRootObject w' i c) by (by rewrite Hw').
  - exact Hfuel.
  - exists ("--- Scene Hierarchy Start ---" :: mid), (hierarchy_lines ts).
    split; [|split; [by apply hierarchy_spec|split; [|split; [|done]]]].
    + unfold printSceneHierarchy.
      rewrite run_bind, run_print. rewrite run_bind, run_getRootObjectsCount.
      rewrite run_bind. cbn [scene emit] in *. rewrite Hrun.
      by rewrite emit_emit.
    + unfold hierarchy_lines. apply prefix_cons. by apply prefix_app_r.
    + unfold hierarchy_lines. cbn [length]. rewrite length_app. cbn [length].
      apply prefix_length in Hpre. lia.
Qed.

Lemma budget_below_height_exhausts_witness :
  scene_unfolds (scene (fresh sample_scene)) sample_forest /\
  2 < forest_height sample_forest /\
  exists part full,
    printSceneHierarchy 2 (fresh sample_scene) =
      Threw StackExhausted (emit (fresh sample_scene) part) /\
    printSceneHierarchy (forest_height sample_forest) (fresh sample_scene) =
      Returned tt (emit (fresh sample_scene) full) /\
    part `prefix_of` full /\
    length part < length full /\
    head part = Some "--- Scene Hierarchy Start ---".
Proof.
  assert (Hun : scene_unfolds (scene (fresh sample_scene)) sample_forest)
    by repeat constructor.
  assert (Hh : 2 < forest_height sample_forest) by (cbn; lia).
  split; [exact Hun|]. split; [exact Hh|].
  exact (budget_below_height_exhausts 2 sample_forest (fresh sample_scene)
           Hun Hh).
Defined.

(** ** The lines a run may write *)

Lemma writes_lines_silent (P : string -> Prop) {A} (m : Js A) :
  (forall w, world_of (m w) = w) -> writes_lines P m.
Proof.
  intros Hm w. exists []. rewrite Hm, emit_nil. by split.
Qed.

Lemma writes_lines_ret P {A} (a : A) : writes_lines P (ret a).
Proof. by apply writes_lines_silent. Qed.

Lemma writes_lines_throw P {A} (e : Failure) : writes_lines P (@throw A e).
Proof. by apply writes_lines_silent. Qed.

Lemma writes_lines_print (P : string -> Prop) line :
  P line -> writes_lines P (print line).
Proof. intros Hline w. exists [line]. split; [done|]. by constructor. Qed.

Lemma writes_lines_bind P {A B} (m : Js A) (k : A -> Js B) :
  writes_lines P m -> (forall a, writes_lines P (k a)) ->
  writes_lines P (m ≫= k).
Proof.
  intros Hm Hk w. destruct (Hm w) as (out & Hw & Hout).
  rewrite run_bind. destruct (m w) as [a w1|e w1]; cbn [world_of] in *.
  - destruct (Hk a w1) as (out' & Hw' & Hout'). exists (out ++ out').
    rewrite Hw', Hw, emit_emit. split; [done|]. by apply Forall_app.
  - by exists out.
Qed.

Lemma writes_lines_mono (P Q : string -> Prop) {A} (m : Js A) :
  (forall line, P line -> Q line) -> writes_lines P m -> writes_lines Q m.
Proof.
  intros HPQ Hm w. destruct (Hm w) as (out & Hw & Hout).
  exists out. split; [done|]. by eapply Forall_impl.
Qed.

Lemma writes_lines_deref P r : writes_lines P (deref r).
Proof.
  apply writes_lines_silent. intros w. unfold deref.
  by destruct (objects (scene w) !! r).
Qed.

Lemma writes_lines_getChild P r i : writes_lines P (getChild r i).
Proof.
  apply writes_lines_bind; [apply writes_lines_deref|].
  intros o. destruct (children o !! i);
    [apply writes_lines_ret|apply writes_lines_throw].
Qed.

Lemma writes_lines_getRootObject P i : writes_lines P (getRootObject i).
Proof.
  apply writes_lines_silent. intros w. unfold getRootObject.
  by destruct (roots (scene w) !! i).
Qed.

Lemma writes_lines_for_from P {V} n : forall start (body : nat -> V -> Js V) acc,
  (forall i a, writes_lines P (body i a)) ->
  writes_lines P (for_from n start body acc).
Proof.
  induction n as [|n IH]; intros start body acc Hbody; cbn [for_from].
  - apply writes_lines_ret.
  - apply writes_lines_bind; [apply Hbody|]. intros acc'. by apply IH.
Qed.

Lemma writes_lines_component_round (P : string -> Prop) cs i names :
  P tween_notice -> writes_lines P (component_round cs i names).
Proof.
  intros Hnotice. unfold component_round.
  destruct (cs !! i) as [[c|]|]; try apply writes_lines_ret.
  destruct (getTypeName c) as [typeName|]; [|apply writes_lines_ret].
  destruct (truthy (tweenType c)); [|apply writes_lines_ret].
  apply writes_lines_bind; [by apply writes_lines_print|].
  intros _. apply writes_lines_ret.
Qed.

Lemma visit_line_own d rest :
  visit_line d (indentation_loop d "" +:+ "|-- " +:+ rest).
Proof.
  right. exists d, rest. rewrite indentation_loop_indent. split; [done|].
  rewrite <- indent_replicate. split; [done|]. apply leading_spaces_indent.
Qed.

Lemma visit_line_deeper d d' line :
  d <= d' -> visit_line d' line -> visit_line d line.
Proof.
  intros Hd [->|(k & rest & Hk & Hline & Hspaces)]; [by left|].
  right. exists k, rest. split; [lia|done].
Qed.

Lemma visit_writes_visit_lines fuel : forall r d,
  writes_lines (visit_line d) (printObjectRecursive fuel r d).
Proof.
  induction fuel as [|fuel IH]; intros r d; cbn [printObjectRecursive].
  - apply writes_lines_throw.
  - apply writes_lines_bind.
    { apply writes_lines_bind; [apply writes_lines_deref|].
      intros o. apply writes_lines_ret. }
    intros cs. apply writes_lines_bind.
    { destruct (0 <? length cs)%nat; [|apply writes_lines_ret].
      apply writes_lines_bind.
      - apply writes_lines_for_from. intros i a.
        apply writes_lines_component_round. by left.
      - intros names. apply writes_lines_ret. }
    intros info. apply writes_lines_bind.
    { apply writes_lines_bind; [apply writes_lines_deref|].
      intros o. apply writes_lines_ret. }
    intros nm. apply writes_lines_bind.
    { apply writes_lines_print. apply visit_line_own. }
    intros _. apply writes_lines_bind.
    { apply writes_lines_bind; [apply writes_lines_deref|].
      intros o. apply writes_lines_ret. }
    intros n. apply writes_lines_for_from. intros i [].
    apply writes_lines_bind; [apply writes_lines_getChild|].
    intros c. eapply writes_lines_mono; [|apply IH].
    intros line. apply visit_line_deeper. lia.
Qed.

Lemma visit_line_not_marker d line :
  visit_line d line -> line <> start_marker /\ line <> end_marker.
Proof.
  intros [->|(k & rest & _ & -> & _)]; [by split|].
  rewrite <- indent_replicate.
  split; intros Heq; apply (f_equal (String.get 0)) in Heq;
    destruct k; vm_compute in Heq; discriminate.
Qed.

(** X4. Whatever the scene and the call budget, and whether it returns or
    fails, [printObjectRecursive(object, depth)] only appends lines that are
    the notice [Found tween component] or that consist of at least [depth]
    units of two spaces followed by ["|-- "]: no line of a visit is indented
    less than the visit is deep. *)
Theorem visit_never_outdents fuel r d w :
  exists out,
    world_of (printObjectRecursive fuel r d w) = emit w out /\
    Forall (fun line =>
              line = "Found tween component" \/
              exists k rest,
                d <= k /\
                line = join "" (replicate k "  ") +:+ "|-- " +:+ rest /\
                leading_spaces line = 2 * k) out.
Proof.
  destruct (visit_writes_visit_lines fuel r d w) as (out & Hw & Hout).
  exists out. split; [exact Hw|].
  eapply Forall_impl; [exact Hout|].
  intros line [->|(k & rest & Hk & Hline & Hspaces)]; [by left|].
  right. by exists k, rest.
Qed.

(** X3. The markers frame the dump and tell a complete dump from a broken
    one.  Whatever the scene and the call budget, the first line that
    [printSceneHierarchy] writes is the start marker; the end marker is
    written exactly when the call returns, and is then the last line; no
    line in between is a marker. *)
Theorem markers_frame_the_dump fuel w :
  exists mid,
    Forall (fun line => line <> "--- Scene Hierarchy Start ---" /\
                        line <> "--- Scene Hierarchy End ---") mid /\
    match printSceneHierarchy fuel w with
    | Returned _ w' =>
        logger w' =
        logger w ++ "--- Scene Hierarchy Start ---" :: mid ++
                    ["--- Scene Hierarchy End ---"]
    | Threw _ w' =>
        logger w' = logger w ++ "--- Scene Hierarchy Start ---" :: mid
    end.
Proof.
  unfold printSceneHierarchy.
  rewrite run_bind, run_print. rewrite run_bind, run_getRootObjectsCount.
  rewrite run_bind.
  destruct (writes_lines_for_from (visit_line 0)
              (length (roots (scene w))) 0
              (fun i (_ : unit) => rootObject ← getRootObject i;
                                   printObjectRecursive fuel rootObject 0) tt)
    with (w := emit w ["--- Scene Hierarchy Start ---"]) as (mid & Hw & Hmid).
  { intros i []. apply writes_lines_bind; [apply writes_lines_getRootObject|].
    intros c. apply visit_writes_visit_lines. }
  exists mid. split.
  { eapply Forall_impl; [exact Hmid|]. intros line.
    apply visit_line_not_marker. }
  unfold for_range. cbn [scene emit] in *.
  destruct (for_from _ 0 _ tt _) as [[] w1|e w1]; cbn [world_of] in Hw;
    subst w1.
  - rewrite run_print, !logger_emit. by rewrite <- !app_assoc.
  - rewrite !logger_emit. by rewrite <- !app_assoc.
Qed.

(** ** A visit, one level at a time *)

Lemma indent_add k d : indent (k + d) = indent k +:+ indent d.
Proof.
  induction k as [|k IH]; [done|].
  cbn [Nat.add indent]. by rewrite IH, append_assoc.
Qed.

Lemma node_line_add k d o : node_line (k + d) o = indent k +:+ node_line d o.
Proof. unfold node_line. by rewrite indent_add, append_assoc. Qed.

Lemma node_line_not_notice d o : String.eqb (node_line d o) tween_notice = false.
Proof.
  apply String.eqb_neq. intros Heq. unfold node_line in Heq.
  apply (f_equal (String.get 0)) in Heq.
  destruct d; vm_compute in Heq; discriminate.
Qed.

Lemma shift_line_notice k : shift_line k tween_notice = tween_notice.
Proof. reflexivity. Qed.

Lemma shift_tween_notes k cs :
  map (shift_line k) (tween_notes cs) = tween_notes cs.
Proof.
  induction cs as [|entry cs IH]; [done|]. cbn [tween_notes].
  destruct (announced entry); [|done].
  cbn [map]. by rewrite IH, shift_line_notice.
Qed.

Lemma object_lines_add k d o :
  object_lines (k + d, o) = map (shift_line k) (object_lines (d, o)).
Proof.
  unfold object_lines. cbn [fst snd]. rewrite map_app, shift_tween_notes.
  cbn [map]. unfold shift_line at 1. rewrite node_line_not_notice.
  by rewrite node_line_add.
Qed.

Lemma preorder_add k t : forall d,
  flat_map object_lines (preorder (k + d) t) =
  map (shift_line k) (flat_map object_lines (preorder d t)).
Proof.
  induction t as [o ts IH] using Tree_ind_nested. intros d.
  cbn [preorder flat_map]. rewrite map_app, object_lines_add. f_equal.
  induction IH as [|t ts Ht _ IHts]; [done|].
  cbn [flat_map]. rewrite !flat_map_app, map_app, IHts. f_equal.
  rewrite <- Ht. by rewrite Nat.add_succ_r.
Qed.

(** X5. The depth of a visit only moves its lines.  On a finite acyclic
    scene, the visit of an object at depth [k + d] writes the lines that its
    visit at depth [d] writes, each line of an object with [k] more units of
    two spaces in front and the notices as they are. *)
Theorem deeper_visit_shifts_lines fuel t r d k w :
  unfolds (objects (scene w)) r t ->
  height t <= fuel ->
  exists out,
    printObjectRecursive fuel r d w = Returned tt (emit w out) /\
    printObjectRecursive fuel r (k + d) w =
    Returned tt (emit w (map (shift_line k) out)).
Proof.
  intros Hun Hfuel. exists (flat_map object_lines (preorder d t)).
  rewrite !(visit_spec t fuel _ Hfuel r w Hun).
  by rewrite preorder_add.
Qed.

Lemma deeper_visit_shifts_lines_witness :
  unfolds (objects (scene (fresh tween_scene))) 0 (Node intro_cta []) /\
  height (Node intro_cta []) <= 1 /\
  printObjectRecursive 1 0 2 (fresh tween_scene) =
  Returned tt (emit (fresh tween_scene)
    ["Found tween component";
     "    |-- Intro Cta (Component.ScriptComponent-TweenScript (type:alpha, name:fadeIn))"]).
Proof.
  assert (Hun : unfolds (objects (scene (fresh tween_scene))) 0
                  (Node intro_cta [])) by repeat constructor.
  assert (Hh : height (Node intro_cta []) <= 1) by (cbn; lia).
  split; [exact Hun|]. split; [exact Hh|].
  destruct (deeper_visit_shifts_lines 1 (Node intro_cta []) 0 0 2
              (fresh tween_scene) Hun Hh) as (out & Hshallow & Hdeep).
  vm_compute in Hshallow. injection Hshallow as <-. exact Hdeep.
Defined.

(** ** Blocks of lines *)

Lemma flat_map_preorder_forest d ts :
  flat_map object_lines (preorder_forest d ts) =
  concat (map (fun t => flat_map object_lines (preorder d t)) ts).
Proof.
  unfold preorder_forest. induction ts as [|t ts IH]; [done|].
  cbn [flat_map map concat]. by rewrite flat_map_app, IH.
Qed.

Lemma visits_write_blocks fuel d refs ts sc :
  Forall2 (unfolds (objects sc)) refs ts ->
  forest_height ts <= fuel ->
  Forall2 (fun r block =>
             forall w0, scene w0 = sc ->
               printObjectRecursive fuel r d w0 = Returned tt (emit w0 block))
          refs (map (fun t => flat_map object_lines (preorder d t)) ts).
Proof.
  intros Hun Hfuel. apply forest_height_Forall in Hfuel.
  induction Hun as [|r t refs ts Hr _ IH]; [constructor|].
  apply Forall_cons in Hfuel as [Ht Hts].
  cbn [map]. constructor; [|by apply IH].
  intros w0 Hw0. apply (visit_spec t fuel d Ht). by rewrite Hw0.
Qed.

(** X6. The dump is made of one block per root.  On a finite acyclic scene
    [printSceneHierarchy] writes, between the two markers, what the visits
    of the roots at depth 0 write, one root after the other in the order of
    [getRootObject]; the block of a root is what its visit writes on its
    own, whatever the Logger holds and whatever the other roots are. *)
Theorem dump_is_blocks_of_roots fuel ts w :
  scene_unfolds (scene w) ts ->
  forest_height ts <= fuel ->
  exists blocks,
    Forall2 (fun r block =>
               forall w0, scene w0 = scene w ->
                 printObjectRecursive fuel r 0 w0 =
                 Returned tt (emit w0 block))
            (roots (scene w)) blocks /\
    printSceneHierarchy fuel w =
    Returned tt (emit w ("--- Scene Hierarchy Start ---" :: concat blocks ++
                         ["--- Scene Hierarchy End ---"])).
Proof.
  intros Hun Hfuel.
  exists (map (fun t => flat_map object_lines (preorder 0 t)) ts).
  split; [by apply visits_write_blocks|].
  rewrite (hierarchy_spec fuel ts w Hun Hfuel).
  unfold hierarchy_lines. by rewrite flat_map_preorder_forest.
Qed.

Lemma dump_is_blocks_of_roots_witness :
  scene_unfolds (scene (fresh sample_scene)) sample_forest /\
  forest_height sample_forest <= 3 /\
  exists blocks,
    length blocks = 4 /\
    printSceneHierarchy 3 (fresh sample_scene) =
    Returned tt (emit (fresh sample_scene)
                   ("--- Scene Hierarchy Start ---" :: concat blocks ++
                    ["--- Scene Hierarchy End ---"])).
Proof.
  assert (Hun : scene_unfolds (scene (fresh sample_scene)) sample_forest)
    by repeat constructor.
  assert (Hh : forest_height sample_forest <= 3) by (cbn; lia).
  split; [exact Hun|]. split; [exact Hh|].
  destruct (dump_is_blocks_of_roots 3 sample_forest (fresh sample_scene)
              Hun Hh) as (blocks & Hblocks & Hrun).
  exists blocks. split; [|exact Hrun].
  apply Forall2_length in Hblocks. by rewrite <- Hblocks.
Defined.

(** X7. A visit writes the object, then its children.  On a finite acyclic
    scene, [printObjectRecursive(object, depth)] writes one notice per
    component announced, then the line of the object, then what the visits
    of its children at [depth + 1] write, one child after the other in the
    order of [getChild]; it needs one nested call more than its children. *)
Theorem visit_is_object_then_children fuel t r d w :
  unfolds (objects (scene w)) r t ->
  forest_height (subtrees_of t) <= fuel ->
  exists blocks,
    Forall2 (fun c block =>
               forall w0, scene w0 = scene w ->
                 printObjectRecursive fuel c (d + 1) w0 =
                 Returned tt (emit w0 block))
            (children (root_object t)) blocks /\
    printObjectRecursive (S fuel) r d w =
    Returned tt
      (emit w (replicate
                 (length (List.filter announced (components (root_object t))))
                 "Found tween component" ++
               [join "" (replicate d "  ") +:+ "|-- " +:+
                name (root_object t) +:+
                componentsInfo (components (root_object t))] ++
               concat blocks)).
Proof.
  intros Hun Hfuel. destruct t as [o ts]. cbn [root_object subtrees_of] in *.
  exists (map (fun t => flat_map object_lines (preorder (d + 1) t)) ts).
  split.
  - apply visits_write_blocks; [|done]. by inversion Hun.
  - rewrite (visit_spec (Node o ts) (S fuel) d); [|cbn; unfold forest_height in Hfuel; lia|done].
    cbn [preorder flat_map]. unfold object_lines at 1. cbn [fst snd].
    rewrite tween_notes_replicate. unfold node_line.
    rewrite <- indent_replicate, <- app_assoc. do 3 f_equal.
    rewrite Nat.add_1_r.
    change (flat_map (preorder (S d)) ts) with (preorder_forest (S d) ts).
    by rewrite flat_map_preorder_forest.
Qed.

Lemma visit_is_object_then_children_witness :
  unfolds (objects (scene (fresh lighting_scene))) 0
    (Node lighting [Node envmap []; Node light []]) /\
  forest_height [Node envmap []; Node light []] <= 1 /\
  exists blocks,
    length blocks = 2 /\
    printObjectRecursive 2 0 0 (fresh lighting_scene) =
    Returned tt (emit (fresh lighting_scene)
                   ("|-- Lighting" :: concat blocks)).
Proof.
  assert (Hun : unfolds (objects (scene (fresh lighting_scene))) 0
                  (Node lighting [Node envmap []; Node light []]))
    by repeat constructor.
  assert (Hh : forest_height [Node envmap []; Node light []] <= 1)
    by (cbn; lia).
  split; [exact Hun|]. split; [exact Hh|].
  destruct (visit_is_object_then_children 1 _ 0 0 (fresh lighting_scene)
              Hun Hh) as (blocks & Hblocks & Hrun).
  exists blocks. split; [|exact Hrun].
  apply Forall2_length in Hblocks. by rewrite <- Hblocks.
Defined.

(** ** Reading the shape back from the indentation *)

Lemma drop_spaces_indent n rest :
  drop_spaces (indent n +:+ "|-- " +:+ rest) = "|-- " +:+ rest.
Proof.
  induction n as [|n IH]; [done|].
  cbn [indent]. rewrite append_assoc.
  change ("  " +:+ ?s) with (String " " (String " " s)).
  cbn [drop_spaces]. exact IH.
Qed.

Lemma prefix_marker rest : String.prefix "|-- " ("|-- " +:+ rest) = true.
Proof. destruct rest; vm_compute; reflexivity. Qed.

Lemma shown_depth_node_line d o : shown_depth (node_line d o) = Some d.
Proof.
  unfold shown_depth, node_line.
  rewrite drop_spaces_indent, leading_spaces_indent, prefix_marker.
  f_equal. rewrite Nat.mul_comm. by apply Nat.div_mul.
Qed.

Lemma shown_depth_tween_notes cs : omap shown_depth (tween_notes cs) = [].
Proof.
  induction cs as [|entry cs IH]; [done|]. cbn [tween_notes].
  destruct (announced entry); [|done]. exact IH.
Qed.

Lemma shown_depths_visits visits :
  omap shown_depth (flat_map object_lines visits) = map fst visits.
Proof.
  induction visits as [|[d o] visits IH]; [done|].
  cbn [flat_map map fst]. rewrite omap_app, IH.
  unfold object_lines. cbn [fst snd].
  rewrite omap_app, shown_depth_tween_notes. cbn [app omap list_omap].
  by rewrite shown_depth_node_line.
Qed.

Lemma shown_depths_hierarchy ts :
  omap shown_depth (hierarchy_lines ts) = map fst (preorder_forest 0 ts).
Proof.
  unfold hierarchy_lines.
  change (omap shown_depth (start_marker :: ?l)) with (omap shown_depth l).
  rewrite omap_app, shown_depths_visits.
  change (omap shown_depth [end_marker]) with (@nil nat).
  by rewrite app_nil_r.
Qed.

Lemma take_deeper_stops d forest :
  head_at_most d forest -> take_deeper d forest = ([], forest).
Proof.
  destruct forest as [|[k s] forest]; [done|]. cbn [head_at_most take_deeper].
  intros Hk. by rewrite (proj2 (Nat.ltb_ge d k) Hk).
Qed.

Lemma take_deeper_children d (kids : list Shape) forest :
  head_at_most d forest ->
  take_deeper d (map (fun s => (S d, s)) kids ++ forest) = (kids, forest).
Proof.
  intros Hhead. induction kids as [|s kids IH].
  - by apply take_deeper_stops.
  - cbn [map app take_deeper]. rewrite IH.
    by rewrite (proj2 (Nat.ltb_lt d (S d)) (Nat.lt_succ_diag_r d)).
Qed.

Lemma head_at_most_succ d forest :
  head_at_most d forest -> head_at_most (S d) forest.
Proof. destruct forest as [|[k s] forest]; cbn; lia. Qed.

Lemma rebuild_forest d ts :
  Forall rebuilds ts ->
  forall rest,
    head_at_most d (rebuild rest) ->
    rebuild (map fst (preorder_forest d ts) ++ rest) =
    map (fun t => (d, shape t)) ts ++ rebuild rest.
Proof.
  induction 1 as [|t ts Ht _ IH]; intros rest Hrest; [done|].
  unfold preorder_forest. cbn [flat_map map].
  rewrite map_app, <- app_assoc. fold (preorder_forest d ts).
  rewrite (Ht d (map fst (preorder_forest d ts) ++ rest)).
  - by rewrite (IH rest Hrest).
  - rewrite (IH rest Hrest). destruct ts; [exact Hrest|cbn; lia].
Qed.

Lemma rebuild_tree t : rebuilds t.
Proof.
  induction t as [o ts IH] using Tree_ind_nested. intros d rest Hrest.
  cbn [preorder map fst app]. unfold rebuild at 1. cbn [foldr].
  fold (rebuild (map fst (flat_map (preorder (S d)) ts) ++ rest)).
  change (flat_map (preorder (S d)) ts) with (preorder_forest (S d) ts).
  rewrite (rebuild_forest (S d) ts IH rest (head_at_most_succ _ _ Hrest)).
  unfold attach.
  replace (map (fun t => (S d, shape t)) ts)
    with (map (fun s => (S d, s)) (map shape ts))
    by (rewrite map_map; reflexivity).
  by rewrite (take_deeper_children d (map shape ts) (rebuild rest) Hrest).
Qed.

Lemma read_shapes_hierarchy ts : read_shapes (hierarchy_lines ts) = map shape ts.
Proof.
  unfold read_shapes. rewrite shown_depths_hierarchy.
  rewrite <- (app_nil_r (map fst (preorder_forest 0 ts))).
  rewrite (rebuild_forest 0 ts); [|apply Forall_forall; intros t _; apply rebuild_tree|done].
  cbn [rebuild foldr]. rewrite app_nil_r, map_map. reflexivity.
Qed.

(** X8. The nesting of the scene can be read back from the log.  On a
    finite acyclic scene, the lines that [printSceneHierarchy] writes
    determine the shape of the forest: keeping the lines in which ["|-- "]
    follows the leading spaces, taking half the number of those spaces as
    depth, and making each line the parent of the deeper lines that follow
    it, gives back the roots and, under each object, its children, in
    order.  Hence two scenes with the same dump have the same shape. *)
Theorem dump_shows_the_shape fuel ts w :
  scene_unfolds (scene w) ts ->
  forest_height ts <= fuel ->
  exists out,
    printSceneHierarchy fuel w = Returned tt (emit w out) /\
    read_shapes out = map shape ts /\
    forall fuel' ts' w',
      scene_unfolds (scene w') ts' ->
      forest_height ts' <= fuel' ->
      printSceneHierarchy fuel' w' = Returned tt (emit w' out) ->
      map shape ts' = map shape ts.
Proof.
  intros Hun Hfuel. exists (hierarchy_lines ts).
  split; [by apply hierarchy_spec|].
  split; [apply read_shapes_hierarchy|].
  intros fuel' ts' w' Hun' Hfuel' Hrun'.
  rewrite (hierarchy_spec fuel' ts' w' Hun' Hfuel') in Hrun'.
  injection Hrun' as Hout. apply app_inv_head in Hout.
  rewrite <- (read_shapes_hierarchy ts'), Hout.
  apply read_shapes_hierarchy.
Qed.

Lemma dump_shows_the_shape_witness :
  scene_unfolds (scene (fresh sample_scene)) sample_forest /\
  forest_height sample_forest <= 3 /\
  exists out,
    printSceneHierarchy 3 (fresh sample_scene) =
    Returned tt (emit (fresh sample_scene) out) /\
    read_shapes out =
    [ ShapeNode [ShapeNode []; ShapeNode []; ShapeNode []];
      ShapeNode [];
      ShapeNode [ShapeNode []; ShapeNode []];
      ShapeNode [ShapeNode [ShapeNode []]] ].
Proof.
  assert (Hun : scene_unfolds (scene (fresh sample_scene)) sample_forest)
    by repeat constructor.
  assert (Hh : forest_height sample_forest <= 3) by (cbn; lia).
  split; [exact Hun|]. split; [exact Hh|].
  destruct (dump_shows_the_shape 3 sample_forest (fresh sample_scene) Hun Hh)
    as (out & Hrun & Hshape & _).
  exists out. split; [exact Hrun|]. rewrite Hshape. reflexivity.
Defined.

(** The shape read from the lines of the scene map of the repository. *)
Example sample_scene_shape :
  read_shapes (logger (world_of (printSceneHierarchy 3 (fresh sample_scene)))) =
  map shape sample_forest.
Proof. vm_compute. reflexivity. Qed.
